(** * SimpleVector: a shallow embedding of [simple_vector.h]

    The class template [SimpleVector<Type>] owns one heap block through an
    [ArrayPtr<Type>] and tracks two [size_t] counters.  The embedding keeps
    the three data members, writes the [size_t] wrap-around out, models the
    element-wise loops of [<algorithm>] as recursive functions over the
    cells of a block, and distinguishes four ways a call can end: it
    returns, it throws, an [assert] fails, or it touches memory outside a
    block.  An argument the code takes by reference is a reference here
    too: an object outside the vector, or a cell of the vector's own
    block.  The build modelled is the default one ([NDEBUG] not
    defined). *)

From stdpp Require Import base list.
From Stdlib Require Import ZArith Lia.

Open Scope Z_scope.

(** ** [size_t] *)

Module SizeT.

Definition modulus : Z := 2 ^ 64.

Definition wrap (z : Z) : Z := z mod modulus.

(** The values a [size_t] object can hold. *)
Definition is_size_t (z : Z) : Prop := 0 <= z < modulus.

Definition add (a b : Z) : Z := wrap (a + b).
Definition sub (a b : Z) : Z := wrap (a - b).
Definition mul (a b : Z) : Z := wrap (a * b).

(** [PTRDIFF_MAX]: no array object is larger than this many bytes, so no
    block has more cells. *)
Definition PTRDIFF_MAX : Z := 2 ^ 63 - 1.

End SizeT.

(** ** Element types

    What the container needs from [Type]: a default constructor and a move
    assignment.  [moved_from x] is the value left in an object that held
    [x] once it has been the source of a move. *)

Class Movable (T : Type) := {
  Type_ctor : T;
  moved_from : T -> T
}.

(** [int]: moving is copying. *)
#[export] Instance Movable_int : Movable Z := {|
  Type_ctor := 0;
  moved_from := fun x => x
|}.

(** [class X] of [main.cpp]: [X()] delegates to [X(5)], and both the move
    constructor and the move assignment do [x_ = exchange(other.x_, 0)]. *)
Record X : Type := MkX { x_ : Z }.

#[export] Instance Movable_X : Movable X := {|
  Type_ctor := MkX 5;
  moved_from := fun _ => MkX 0
|}.

(** ** How a call ends *)

Inductive exception : Type :=
| bad_alloc
| out_of_range.

(** [Done r s]: the call returned [r] and left the object(s) as [s].
    [Thrown e s]: exception [e] left the call, the object(s) being [s].
    [Aborted]: an [assert] failed.
    [Undefined]: a cell outside a block was read or written. *)
Inductive result (S A : Type) : Type :=
| Done (r : A) (s : S)
| Thrown (e : exception) (s : S)
| Aborted
| Undefined.

Arguments Done {S A} r s.
Arguments Thrown {S A} e s.
Arguments Aborted {S A}.
Arguments Undefined {S A}.

(** ** Blocks of cells and the loops of [<algorithm>] *)

Section Blocks.

Context {T : Type} {MT : Movable T}.

(** [b[i]] read and written through a pointer into the block [b]. *)
Definition cell_get (b : list T) (i : nat) : option T := b !! i.

Definition cell_set (b : list T) (i : nat) (x : T) : option (list T) :=
  if (i <? length b)%nat then Some (<[i:=x]> b) else None.

(** [std::fill(first, last, value)], [n = last - first] cells from [i]. *)
Fixpoint std_fill (n : nat) (b : list T) (i : nat) (value : T)
  : option (list T) :=
  match n with
  | O => Some b
  | S n' => b' ← cell_set b i value; std_fill n' b' (S i) value
  end.

(** [std::copy(first, last, d_first)] between two blocks. *)
Fixpoint std_copy (n : nat) (src : list T) (s : nat) (dst : list T) (d : nat)
  : option (list T) :=
  match n with
  | O => Some dst
  | S n' =>
      x ← cell_get src s;
      dst' ← cell_set dst d x;
      std_copy n' src (S s) dst' (S d)
  end.

(** [std::copy] through [std::make_move_iterator], between two blocks:
    each step move-assigns the cell at [first] to the cell at [d_first]. *)
Fixpoint std_copy_move (n : nat) (src : list T) (s : nat) (dst : list T) (d : nat)
  : option (list T * list T) :=
  match n with
  | O => Some (src, dst)
  | S n' =>
      x ← cell_get src s;
      dst' ← cell_set dst d x;
      src' ← cell_set src s (moved_from x);
      std_copy_move n' src' (S s) dst' (S d)
  end.

(** The same loop when source and destination lie in one block: [n] cells
    from [s] are moved, lowest first, to [d]. *)
Fixpoint std_copy_move_within (n : nat) (b : list T) (s d : nat)
  : option (list T) :=
  match n with
  | O => Some b
  | S n' =>
      x ← cell_get b s;
      b1 ← cell_set b d x;
      b2 ← cell_set b1 s (moved_from x);
      std_copy_move_within n' b2 (S s) (S d)
  end.

(** [std::copy_backward] through move iterators inside one block: the
    [n] cells from [first] are moved, highest first, so that the last one
    lands just below [d_last]; each step decrements [last] and [d_last]
    and move-assigns the cell at [last] to the cell at [d_last]. *)
Fixpoint std_copy_backward_move_within (n : nat) (b : list T) (first d_last : nat)
  : option (list T) :=
  match n with
  | O => Some b
  | S n' =>
      match d_last with
      | O => None
      | S d' =>
          x ← cell_get b (first + n')%nat;
          b1 ← cell_set b d' x;
          b2 ← cell_set b1 (first + n')%nat (moved_from x);
          std_copy_backward_move_within n' b2 first d'
      end
  end.

(** [for (i = from; i < from + n; ++i) b[i] = std::move(Type());] *)
Fixpoint fill_default (n : nat) (b : list T) (i : nat) : option (list T) :=
  match n with
  | O => Some b
  | S n' => b' ← cell_set b i Type_ctor; fill_default n' b' (S i)
  end.

(** [for (i = from; i < from + n; ++i) b[i] = std::move(value);] with one
    and the same [value] object, which every step leaves moved from. *)
Fixpoint fill_move (n : nat) (b : list T) (i : nat) (value : T)
  : option (list T * T) :=
  match n with
  | O => Some (b, value)
  | S n' => b' ← cell_set b i value; fill_move n' b' (S i) (moved_from value)
  end.

End Blocks.

(** ** The free store

    [heap_grants n] tells whether a request for [n] cells is served;
    [fresh_cell i] is what cell [i] of a new block holds before anything is
    assigned to it ([Type()] for a class type, anything for a scalar). *)

Class FreeStore (T : Type) := {
  heap_grants : Z -> bool;
  fresh_cell : nat -> T
}.

(** ** The container *)

Section SimpleVector.

Context {T : Type} {MT : Movable T} {FS : FreeStore T}.

(** Modelled from the spec: [ArrayPtr] ([array_ptr.h]) is the owned
    buffer.  [allocate(n)] gives a block of [n] cells or fails with
    AllocationFailure; the pointer of a buffer of 0 cells is null, so
    nothing is requested for [n = 0].  On top of what the store decides,
    [new Type[n]] refuses an array of more than [PTRDIFF_MAX] bytes, hence
    of more than [PTRDIFF_MAX] cells. *)
Definition ArrayPtr_new (n : Z) : option (list T) :=
  if n =? 0 then Some []
  else if (n <=? SizeT.PTRDIFF_MAX) && heap_grants n
       then Some (fresh_cell <$> seq 0 (Z.to_nat n))
       else None.

(** Modelled from the spec: [buffer.swap(other)] exchanges ownership and
    does not throw. *)
Definition ArrayPtr_swap (a b : list T) : list T * list T := (b, a).

(** Modelled from the spec: the buffer is "moved-from-able"; moving it
    hands the block over and leaves the source with the null pointer. *)
Definition ArrayPtr_move (src : list T) : list T * list T := (src, []).

(** Modelled from the spec: the buffer "exposes element access by offset",
    [ArrayPtr::operator[]] with a [size_t] index; an offset outside the
    block is not checked there. *)
Definition ArrayPtr_set (b : list T) (index : Z) (x : T) : option (list T) :=
  if 0 <=? index then cell_set b (Z.to_nat index) x else None.

Record SimpleVector : Type := MkVec {
  items_ : list T;
  size_ : Z;
  capacity_ : Z
}.

(** Iterators and references are offsets from [items_.Get()]. *)
Definition Iterator : Type := Z.
Definition Ref : Type := Z.

Definition begin_ (v : SimpleVector) : Iterator := 0.
Definition end_ (v : SimpleVector) : Iterator := size_ v.

(** *** Constructors *)

(** [SimpleVector() noexcept = default] *)
Definition ctor_default : SimpleVector := MkVec [] 0 0.

(** [SimpleVector(size_t size, const Type& value)] *)
Definition ctor_fill (size : Z) (value : T) : result unit SimpleVector :=
  match ArrayPtr_new size with
  | None => Thrown bad_alloc ()
  | Some items =>
      match std_fill (Z.to_nat size) items 0 value with
      | None => Undefined
      | Some items' => Done (MkVec items' size size) ()
      end
  end.

(** [SimpleVector(size_t size, Type&& value)]; also returns what is left
    in the caller's [value]. *)
Definition ctor_fill_move (size : Z) (value : T) : result unit (SimpleVector * T) :=
  match ArrayPtr_new size with
  | None => Thrown bad_alloc ()
  | Some items =>
      match fill_move (Z.to_nat size) items 0 value with
      | None => Undefined
      | Some (items', value') => Done (MkVec items' size size, value') ()
      end
  end.

(** [explicit SimpleVector(size_t size)] delegates to the constructor
    above with the temporary [Type()]. *)
Definition ctor_sized (size : Z) : result unit SimpleVector :=
  match ctor_fill_move size Type_ctor with
  | Done (v, _) _ => Done v ()
  | Thrown e _ => Thrown e ()
  | Aborted => Aborted
  | Undefined => Undefined
  end.

(** [SimpleVector(std::initializer_list<Type> init)] *)
Definition ctor_init (init : list T) : result unit SimpleVector :=
  let n := Z.of_nat (length init) in
  match ArrayPtr_new n with
  | None => Thrown bad_alloc ()
  | Some items =>
      match std_copy (length init) init 0 items 0 with
      | None => Undefined
      | Some items' => Done (MkVec items' n n) ()
      end
  end.

(** [SimpleVector(const SimpleVector& other)] *)
Definition ctor_copy (other : SimpleVector) : result unit SimpleVector :=
  match ArrayPtr_new (capacity_ other) with
  | None => Thrown bad_alloc ()
  | Some items =>
      match std_copy (Z.to_nat (size_ other)) (items_ other) 0 items 0 with
      | None => Undefined
      | Some items' => Done (MkVec items' (size_ other) (capacity_ other)) ()
      end
  end.

(** [SimpleVector(SimpleVector&& other)]: the new object and what is
    left of [other]. *)
Definition ctor_move (other : SimpleVector) : SimpleVector * SimpleVector :=
  let '(items, other_items) := ArrayPtr_move (items_ other) in
  let size := size_ other in
  let capacity := size in
  (MkVec items size capacity, MkVec other_items 0 0).

(** *** Observers *)

Definition GetSize (v : SimpleVector) : Z := size_ v.
Definition GetCapacity (v : SimpleVector) : Z := capacity_ v.
Definition IsEmpty (v : SimpleVector) : bool := GetSize v =? 0.

(** [operator[]], mutable and [const]. *)
Definition index (v : SimpleVector) (i : Z) : result SimpleVector Ref :=
  if i <? size_ v then Done i v else Aborted.

Definition index_const (v : SimpleVector) (i : Z) : result SimpleVector Ref :=
  if i <? size_ v then Done i v else Aborted.

(** [At], mutable and [const]. *)
Definition At (v : SimpleVector) (i : Z) : result SimpleVector Ref :=
  if i >=? size_ v then Thrown out_of_range v else Done i v.

Definition At_const (v : SimpleVector) (i : Z) : result SimpleVector Ref :=
  if i >=? size_ v then Thrown out_of_range v else Done i v.

(** The object a reference into the block of [v] designates. *)
Definition deref (v : SimpleVector) (r : Ref) : option T :=
  if 0 <=? r then cell_get (items_ v) (Z.to_nat r) else None.

(** *** Arguments taken by reference

    [PushBack] and [Insert] take their argument as [const Type&] or
    [Type&&]: it is an object outside the vector, or a cell of the
    vector's own block at the time of the call, as in
    [v.PushBack(v[0])]. *)
Inductive Arg : Type :=
| Outside (x : T)
| Own (r : Ref).

(** Reading through the reference.  For a cell of the vector, [live]
    tells whether the block it was taken from is still allocated and
    [block] is what that block holds by now; a freed block, or no such
    cell, is a read outside a block. *)
Definition read_arg (live : bool) (block : list T) (a : Arg) : option T :=
  match a with
  | Outside x => Some x
  | Own r => if live && (0 <=? r) then cell_get block (Z.to_nat r) else None
  end.

(** [std::move] from the referenced object, which held [x]: the object is
    left moved from.  Gives the block and the argument afterwards. *)
Definition reset_arg (block : list T) (a : Arg) (x : T) : list T * Arg :=
  match a with
  | Outside _ => (block, Outside (moved_from x))
  | Own r => (<[Z.to_nat r:=moved_from x]> block, Own r)
  end.

(** *** Modifiers *)

(** [void swap(SimpleVector& other) noexcept] *)
Definition swap (v other : SimpleVector) : SimpleVector * SimpleVector :=
  let '(items, other_items) := ArrayPtr_swap (items_ v) (items_ other) in
  (MkVec items (size_ other) (capacity_ other),
   MkVec other_items (size_ v) (capacity_ v)).

(** [void Reserve(size_t new_capacity)] *)
Definition Reserve (v : SimpleVector) (new_capacity : Z) : result SimpleVector unit :=
  if new_capacity >? capacity_ v then
    match ArrayPtr_new new_capacity with
    | None => Thrown bad_alloc v
    | Some temp =>
        match std_copy_move (Z.to_nat (size_ v)) (items_ v) 0 temp 0 with
        | None => Undefined
        | Some (old, temp') =>
            let '(items, _) := ArrayPtr_swap old temp' in
            Done () (MkVec items (size_ v) new_capacity)
        end
    end
  else Done () v.

(** [SimpleVector(ReserveProxyObj obj)]: the members take their default
    initialisers, then the body calls [Reserve]. *)
Definition ctor_reserve (capacity_to_reserve : Z) : result unit SimpleVector :=
  match Reserve ctor_default capacity_to_reserve with
  | Done _ v => Done v ()
  | Thrown e _ => Thrown e ()
  | Aborted => Aborted
  | Undefined => Undefined
  end.

(** [void Resize(size_t new_size)] *)
Definition Resize (v : SimpleVector) (new_size : Z) : result SimpleVector unit :=
  if new_size <=? capacity_ v then
    if new_size <=? size_ v then
      Done () (MkVec (items_ v) new_size (capacity_ v))
    else
      match fill_default (Z.to_nat (new_size - size_ v)) (items_ v)
                         (Z.to_nat (size_ v)) with
      | None => Undefined
      | Some items => Done () (MkVec items new_size (capacity_ v))
      end
  else
    let capacity := Z.max new_size (SizeT.mul (capacity_ v) 2) in
    match ArrayPtr_new capacity with
    | None => Thrown bad_alloc (MkVec (items_ v) (size_ v) capacity)
    | Some temp =>
        match std_copy_move (Z.to_nat (size_ v)) (items_ v) 0 temp 0 with
        | None => Undefined
        | Some (old, temp1) =>
            match fill_default (Z.to_nat (new_size - size_ v)) temp1
                               (Z.to_nat (size_ v)) with
            | None => Undefined
            | Some temp2 =>
                let '(items, _) := ArrayPtr_swap old temp2 in
                Done () (MkVec items new_size capacity)
            end
        end
    end.

(** [Resize] replaces the block exactly in its last branch: after
    [items_.swap(temp)] the old block belongs to [temp], whose scope ends
    with the branch.  Modelled from the spec: the owned buffer "releases
    all memory on destruction", so the old block is freed there. *)
Definition Resize_frees (v : SimpleVector) (new_size : Z) : bool :=
  negb (new_size <=? capacity_ v).

(** [void PushBack(const Type& item)]: [item] is read in the last
    statement, after [Resize]. *)
Definition PushBack (v : SimpleVector) (item : Arg) : result SimpleVector unit :=
  let index := size_ v in
  let grown :=
    if size_ v =? capacity_ v then Resize v (SizeT.add (capacity_ v) 1)
    else Done () (MkVec (items_ v) (SizeT.add (size_ v) 1) (capacity_ v)) in
  let live :=
    negb ((size_ v =? capacity_ v) && Resize_frees v (SizeT.add (capacity_ v) 1)) in
  match grown with
  | Done _ v' =>
      match read_arg live (items_ v') item with
      | None => Undefined
      | Some x =>
          match ArrayPtr_set (items_ v') index x with
          | None => Undefined
          | Some items => Done () (MkVec items (size_ v') (capacity_ v'))
          end
      end
  | other => other
  end.

(** [void PushBack(Type&& item)]: the same statements with
    [std::move(item)]; also returns the argument as the call leaves it. *)
Definition PushBack_move (v : SimpleVector) (item : Arg) : result SimpleVector Arg :=
  let index := size_ v in
  let grown :=
    if size_ v =? capacity_ v then Resize v (SizeT.add (capacity_ v) 1)
    else Done () (MkVec (items_ v) (SizeT.add (size_ v) 1) (capacity_ v)) in
  let live :=
    negb ((size_ v =? capacity_ v) && Resize_frees v (SizeT.add (capacity_ v) 1)) in
  match grown with
  | Done _ v' =>
      match read_arg live (items_ v') item with
      | None => Undefined
      | Some x =>
          let '(items1, item') := reset_arg (items_ v') item x in
          match ArrayPtr_set items1 index x with
          | None => Undefined
          | Some items => Done item' (MkVec items (size_ v') (capacity_ v'))
          end
      end
  | Thrown e v' => Thrown e v'
  | Aborted => Aborted
  | Undefined => Undefined
  end.

(** [Iterator Insert(ConstIterator pos, const Type& value)]: [value] is
    read after the elements were shifted, or after the first of them were
    moved to the new block. *)
Definition Insert (v : SimpleVector) (pos : Iterator) (value : Arg)
  : result SimpleVector Iterator :=
  if (begin_ v <=? pos) && (pos <=? end_ v) then
    let index := pos - begin_ v in
    if size_ v <? capacity_ v then
      match std_copy_backward_move_within (Z.to_nat (end_ v - (begin_ v + index)))
              (items_ v) (Z.to_nat (begin_ v + index)) (Z.to_nat (end_ v + 1)) with
      | None => Undefined
      | Some items1 =>
          match read_arg true items1 value with
          | None => Undefined
          | Some x =>
              match ArrayPtr_set items1 index x with
              | None => Undefined
              | Some items2 =>
                  Done (begin_ v + index)
                       (MkVec items2 (SizeT.add (size_ v) 1) (capacity_ v))
              end
          end
      end
    else
      match ctor_sized (Z.max (SizeT.mul (capacity_ v) 2) 1) with
      | Done temp _ =>
          let temp_size := SizeT.add (size_ v) 1 in
          match std_copy_move (Z.to_nat index) (items_ v) 0 (items_ temp) 0 with
          | None => Undefined
          | Some (old1, t1) =>
              if index <? temp_size then
                match read_arg true old1 value with
                | None => Undefined
                | Some x =>
                    match ArrayPtr_set t1 index x with
                    | None => Undefined
                    | Some t2 =>
                        match std_copy_move (Z.to_nat (end_ v - (begin_ v + index)))
                                old1 (Z.to_nat index) t2 (Z.to_nat (index + 1)) with
                        | None => Undefined
                        | Some (old2, t3) =>
                            let '(this, _) :=
                              swap (MkVec old2 (size_ v) (capacity_ v))
                                   (MkVec t3 temp_size (capacity_ temp)) in
                            Done (begin_ this + index) this
                        end
                    end
                end
              else Aborted
          end
      | Thrown e _ => Thrown e v
      | Aborted => Aborted
      | Undefined => Undefined
      end
  else Aborted.

(** [Iterator Insert(ConstIterator pos, Type&& value)]: the same
    statements with [std::move(value)]; also returns the argument as the
    call leaves it. *)
Definition Insert_move (v : SimpleVector) (pos : Iterator) (value : Arg)
  : result SimpleVector (Iterator * Arg) :=
  if (begin_ v <=? pos) && (pos <=? end_ v) then
    let index := pos - begin_ v in
    if size_ v <? capacity_ v then
      match std_copy_backward_move_within (Z.to_nat (end_ v - (begin_ v + index)))
              (items_ v) (Z.to_nat (begin_ v + index)) (Z.to_nat (end_ v + 1)) with
      | None => Undefined
      | Some items1 =>
          match read_arg true items1 value with
          | None => Undefined
          | Some x =>
              let '(items1', value') := reset_arg items1 value x in
              match ArrayPtr_set items1' index x with
              | None => Undefined
              | Some items2 =>
                  Done (begin_ v + index, value')
                       (MkVec items2 (SizeT.add (size_ v) 1) (capacity_ v))
              end
          end
      end
    else
      match ctor_sized (Z.max (SizeT.mul (capacity_ v) 2) 1) with
      | Done temp _ =>
          let temp_size := SizeT.add (size_ v) 1 in
          match std_copy_move (Z.to_nat index) (items_ v) 0 (items_ temp) 0 with
          | None => Undefined
          | Some (old1, t1) =>
              if index <? temp_size then
                match read_arg true old1 value with
                | None => Undefined
                | Some x =>
                    let '(old1', value') := reset_arg old1 value x in
                    match ArrayPtr_set t1 index x with
                    | None => Undefined
                    | Some t2 =>
                        match std_copy_move (Z.to_nat (end_ v - (begin_ v + index)))
                                old1' (Z.to_nat index) t2 (Z.to_nat (index + 1)) with
                        | None => Undefined
                        | Some (old2, t3) =>
                            let '(this, _) :=
                              swap (MkVec old2 (size_ v) (capacity_ v))
                                   (MkVec t3 temp_size (capacity_ temp)) in
                            Done (begin_ this + index, value') this
                        end
                    end
                end
              else Aborted
          end
      | Thrown e _ => Thrown e v
      | Aborted => Aborted
      | Undefined => Undefined
      end
  else Aborted.

(** [void PopBack() noexcept] *)
Definition PopBack (v : SimpleVector) : SimpleVector :=
  if negb (IsEmpty v) then MkVec (items_ v) (SizeT.sub (size_ v) 1) (capacity_ v)
  else v.

(** [Iterator Erase(ConstIterator pos)] *)
Definition Erase (v : SimpleVector) (pos : Iterator) : result SimpleVector Iterator :=
  if (begin_ v <=? pos) && (pos <? end_ v) then
    let index := pos - begin_ v in
    match std_copy_move_within (Z.to_nat (end_ v - (begin_ v + index + 1)))
            (items_ v) (Z.to_nat (begin_ v + index + 1))
            (Z.to_nat (begin_ v + index)) with
    | None => Undefined
    | Some items =>
        Done (begin_ v + index) (MkVec items (SizeT.sub (size_ v) 1) (capacity_ v))
    end
  else Aborted.

(** [void Clear() noexcept] *)
Definition Clear (v : SimpleVector) : SimpleVector :=
  MkVec (items_ v) 0 (capacity_ v).

(** [operator=(const SimpleVector& rhs)].  [same] tells whether
    [this == &rhs]; the state is the pair of [*this] and [rhs]. *)
Definition assign_copy (same : bool) (v rhs : SimpleVector)
  : result (SimpleVector * SimpleVector) unit :=
  if negb same then
    match ctor_copy rhs with
    | Done temp _ => let '(this, _) := swap v temp in Done () (this, rhs)
    | Thrown e _ => Thrown e (v, rhs)
    | Aborted => Aborted
    | Undefined => Undefined
    end
  else Done () (v, rhs).

(** [operator=(SimpleVector&& rhs)] *)
Definition assign_move (same : bool) (v rhs : SimpleVector)
  : SimpleVector * SimpleVector :=
  if negb same then
    let '(items, rhs_items) := ArrayPtr_move (items_ rhs) in
    (MkVec items (size_ rhs) (capacity_ rhs), MkVec rhs_items 0 0)
  else (v, rhs).

(** [for (x : items) v.PushBack(x);] as the tests of [main.cpp] run it,
    with objects that are not elements of [v]. *)
Fixpoint push_all (v : SimpleVector) (items : list T) : result SimpleVector unit :=
  match items with
  | [] => Done () v
  | x :: rest =>
      match PushBack v (Outside x) with
      | Done _ v' => push_all v' rest
      | other => other
      end
  end.

(** *** What a caller can see *)

(** The logical sequence: the cells at offsets [0 .. size_). *)
Definition elements (v : SimpleVector) : list T :=
  take (Z.to_nat (size_ v)) (items_ v).

(** What a reference argument designates when the call starts. *)
Definition arg_value (v : SimpleVector) (a : Arg) : option T :=
  read_arg true (items_ v) a.

(** The class invariant: the size does not exceed the capacity, and the
    block owned has at least [capacity_] cells (exactly that many, except
    after the move constructor). *)
Definition valid (v : SimpleVector) : Prop :=
  0 <= size_ v <= capacity_ v /\
  capacity_ v <= Z.of_nat (length (items_ v)) /\
  Z.of_nat (length (items_ v)) <= SizeT.PTRDIFF_MAX.

(** The invariant of the data model alone: two [size_t] counters, the
    size not above the capacity. *)
Definition size_le_capacity (v : SimpleVector) : Prop :=
  0 <= size_ v <= capacity_ v /\ capacity_ v < SizeT.modulus.

(** [completes before after]: one call of a constructor or of a public
    member function returned; [before] lists the vectors it was given
    ([*this] first) and [after] the vectors it leaves (the new one, or
    [*this], first).  Arguments of type [size_t] are in range.  [GetSize],
    [GetCapacity], [IsEmpty], [begin], [end] and the comparison operators
    only read a [const] vector and return a value; they have no case. *)
Inductive completes : list SimpleVector -> list SimpleVector -> Prop :=
| run_ctor_default :
    completes [] [ctor_default]
| run_ctor_sized size v :
    SizeT.is_size_t size -> ctor_sized size = Done v () ->
    completes [] [v]
| run_ctor_fill size value v :
    SizeT.is_size_t size -> ctor_fill size value = Done v () ->
    completes [] [v]
| run_ctor_fill_move size value v value' :
    SizeT.is_size_t size -> ctor_fill_move size value = Done (v, value') () ->
    completes [] [v]
| run_ctor_reserve capacity_to_reserve v :
    SizeT.is_size_t capacity_to_reserve ->
    ctor_reserve capacity_to_reserve = Done v () ->
    completes [] [v]
| run_ctor_init init v :
    ctor_init init = Done v () ->
    completes [] [v]
| run_ctor_copy other v :
    ctor_copy other = Done v () ->
    completes [other] [v; other]
| run_ctor_move other :
    completes [other] [(ctor_move other).1; (ctor_move other).2]
| run_assign_copy same v rhs v' rhs' :
    assign_copy same v rhs = Done () (v', rhs') ->
    completes [v; rhs] [v'; rhs']
| run_assign_move same v rhs :
    completes [v; rhs] [(assign_move same v rhs).1; (assign_move same v rhs).2]
| run_Reserve v new_capacity v' :
    SizeT.is_size_t new_capacity -> Reserve v new_capacity = Done () v' ->
    completes [v] [v']
| run_PushBack v item v' :
    PushBack v item = Done () v' ->
    completes [v] [v']
| run_PushBack_move v item item' v' :
    PushBack_move v item = Done item' v' ->
    completes [v] [v']
| run_Insert v pos value it v' :
    Insert v pos value = Done it v' ->
    completes [v] [v']
| run_Insert_move v pos value r v' :
    Insert_move v pos value = Done r v' ->
    completes [v] [v']
| run_PopBack v :
    completes [v] [PopBack v]
| run_Erase v pos it v' :
    Erase v pos = Done it v' ->
    completes [v] [v']
| run_swap v other :
    completes [v; other] [(swap v other).1; (swap v other).2]
| run_Clear v :
    completes [v] [Clear v]
| run_Resize v new_size v' :
    SizeT.is_size_t new_size -> Resize v new_size = Done () v' ->
    completes [v] [v']
| run_index v i r v' :
    index v i = Done r v' ->
    completes [v] [v']
| run_index_const v i r v' :
    index_const v i = Done r v' ->
    completes [v] [v']
| run_At v i r v' :
    At v i = Done r v' ->
    completes [v] [v']
| run_At_const v i r v' :
    At_const v i = Done r v' ->
    completes [v] [v'].

End SimpleVector.

Arguments SimpleVector : clear implicits.
Arguments Arg : clear implicits.

(** ** Comparison operators

    What they need from [Type]: [operator==] and [operator<]. *)

Class Comparable (T : Type) := {
  elt_eqb : T -> T -> bool;
  elt_ltb : T -> T -> bool
}.

(** [int] *)
#[export] Instance Comparable_int : Comparable Z := {|
  elt_eqb := Z.eqb;
  elt_ltb := Z.ltb
|}.

Section Comparison.

Context {T : Type} {CT : Comparable T}.

(** The loop of [std::equal]: [n] cells of [b1] from [i1] against [n] cells
    of [b2] from [i2]; [None] when a cell outside a block is read. *)
Fixpoint std_equal_loop (n : nat) (b1 : list T) (i1 : nat) (b2 : list T) (i2 : nat)
  : option bool :=
  match n with
  | O => Some true
  | S n' =>
      x ← cell_get b1 i1;
      y ← cell_get b2 i2;
      if elt_eqb x y then std_equal_loop n' b1 (S i1) b2 (S i2) else Some false
  end.

(** [std::equal(first1, last1, first2, last2)] on pointers: ranges of
    different lengths are unequal without any element being compared. *)
Definition std_equal (b1 : list T) (first1 last1 : nat)
                     (b2 : list T) (first2 last2 : nat) : option bool :=
  if (last1 - first1 =? last2 - first2)%nat
  then std_equal_loop (last1 - first1) b1 first1 b2 first2
  else Some false.

(** [std::lexicographical_compare(first1, last1, first2, last2)], with
    [n1] and [n2] cells left in the two ranges. *)
Fixpoint std_lexicographical_compare (n1 n2 : nat)
    (b1 : list T) (i1 : nat) (b2 : list T) (i2 : nat) : option bool :=
  match n1, n2 with
  | S n1', S n2' =>
      x ← cell_get b1 i1;
      y ← cell_get b2 i2;
      if elt_ltb x y then Some true
      else if elt_ltb y x then Some false
      else std_lexicographical_compare n1' n2' b1 (S i1) b2 (S i2)
  | O, S _ => Some true
  | _, O => Some false
  end.

(** [operator==] *)
Definition operator_eq (lhs rhs : SimpleVector T) : option bool :=
  std_equal (items_ lhs) (Z.to_nat (begin_ lhs)) (Z.to_nat (end_ lhs))
            (items_ rhs) (Z.to_nat (begin_ rhs)) (Z.to_nat (end_ rhs)).

(** [operator!=] *)
Definition operator_ne (lhs rhs : SimpleVector T) : option bool :=
  negb <$> operator_eq lhs rhs.

(** [operator<] *)
Definition operator_lt (lhs rhs : SimpleVector T) : option bool :=
  std_lexicographical_compare
    (Z.to_nat (end_ lhs) - Z.to_nat (begin_ lhs))
    (Z.to_nat (end_ rhs) - Z.to_nat (begin_ rhs))
    (items_ lhs) (Z.to_nat (begin_ lhs)) (items_ rhs) (Z.to_nat (begin_ rhs)).

(** [operator<=] *)
Definition operator_le (lhs rhs : SimpleVector T) : option bool :=
  negb <$> operator_lt rhs lhs.

(** [operator>] *)
Definition operator_gt (lhs rhs : SimpleVector T) : option bool :=
  operator_lt rhs lhs.

(** [operator>=] *)
Definition operator_ge (lhs rhs : SimpleVector T) : option bool :=
  negb <$> operator_gt rhs lhs.

(** The two comparisons as functions of the logical sequences. *)
Fixpoint seq_eqb (l1 l2 : list T) : bool :=
  match l1, l2 with
  | [], [] => true
  | x :: l1', y :: l2' => elt_eqb x y && seq_eqb l1' l2'
  | _, _ => false
  end.

Fixpoint seq_ltb (l1 l2 : list T) : bool :=
  match l1, l2 with
  | x :: l1', y :: l2' =>
      if elt_ltb x y then true
      else if elt_ltb y x then false
      else seq_ltb l1' l2'
  | [], _ :: _ => true
  | _, [] => false
  end.

End Comparison.

(** ** Concrete stores and vectors *)

(** A store that serves every request; new [int] cells read as 0. *)
Definition ample_store : FreeStore Z := {|
  heap_grants := fun _ => true;
  fresh_cell := fun _ => 0
|}.

(** A store with room for three cells at most. *)
Definition tight_store : FreeStore Z := {|
  heap_grants := fun n => n <=? 3;
  fresh_cell := fun _ => 0
|}.

(** A store of [X] objects: [new X[n]] default-constructs every cell. *)
Definition store_X : FreeStore X := {|
  heap_grants := fun _ => true;
  fresh_cell := fun _ => Type_ctor
|}.

(** A store that serves no request. *)
Definition exhausted_store : FreeStore Z := {|
  heap_grants := fun _ => false;
  fresh_cell := fun _ => 0
|}.

(** [SimpleVector<int> v{1, 2, 3}] *)
Definition v123 : SimpleVector Z := MkVec [1; 2; 3] 3 3.

(** [{1, 2, 3}] with room for three more elements. *)
Definition v123_roomy : SimpleVector Z := MkVec [1; 2; 3; 0; 0; 0] 3 6.

(** ** [main.cpp] *)

Definition INT_MAX : Z := 2 ^ 31 - 1.

(** [std::iota(first, last, value)] over [int] cells: each step stores
    [value] and increments it; incrementing [INT_MAX] is undefined. *)
Fixpoint std_iota (n : nat) (b : list Z) (i : nat) (value : Z) : option (list Z) :=
  match n with
  | O => Some b
  | S n' =>
      b' ← cell_set b i value;
      if value <? INT_MAX then std_iota n' b' (S i) (value + 1) else None
  end.

(** [SimpleVector<int> GenerateVector(size_t size)]; the local vector is
    returned in place (the move constructor would hand over the same
    block and the same counters, the capacity of a sized vector being its
    size). *)
Definition GenerateVector `{FS : FreeStore Z} (size : Z) : result unit (SimpleVector Z) :=
  match ctor_sized size with
  | Done v _ =>
      match std_iota (Z.to_nat (end_ v) - Z.to_nat (begin_ v)) (items_ v)
                     (Z.to_nat (begin_ v)) 1 with
      | None => Undefined
      | Some items => Done (MkVec items (size_ v) (capacity_ v)) ()
      end
  | other => other
  end.

(** * Facts about the loops *)

(** Lookups in a block after assignments to its cells. *)
Ltac cells :=
  repeat first
    [ progress rewrite ?length_insert
    | rewrite list_lookup_insert_ne by lia
    | rewrite list_lookup_insert_eq by (rewrite ?length_insert; lia) ].

Section BlockFacts.

Context {T : Type} {MT : Movable T}.
Local Open Scope nat_scope.
Implicit Types (b src dst : list T) (x : T) (n i j s d : nat).

Lemma cell_set_Some b i x b' :
  cell_set b i x = Some b' ↔ i < length b ∧ b' = <[i:=x]> b.
Proof.
  unfold cell_set. destruct (Nat.ltb_spec i (length b)); split.
  - by intros [= <-].
  - by intros [_ ->].
  - done.
  - intros [? _]. lia.
Qed.

Lemma cell_set_lt b i x : i < length b → cell_set b i x = Some (<[i:=x]> b).
Proof. intros. by apply cell_set_Some. Qed.

Lemma cell_get_lt b i : i < length b → ∃ x, cell_get b i = Some x.
Proof. intros Hi. by apply lookup_lt_is_Some_2. Qed.

(** [fill_default] writes [Type()] to [n] consecutive cells. *)
Lemma fill_default_in_block n : ∀ b i,
  i + n ≤ length b →
  ∃ b', fill_default n b i = Some b' ∧ length b' = length b ∧
        ∀ j, b' !! j = if decide (i ≤ j < i + n) then Some Type_ctor else b !! j.
Proof.
  induction n as [|n IH]; intros b i Hlen; simpl.
  - exists b. split_and!; try done. intros j. case_decide; [lia|done].
  - rewrite cell_set_lt by lia. simpl.
    destruct (IH (<[i:=Type_ctor]> b) (S i)) as (b' & -> & Hl & Hj).
    { rewrite length_insert. lia. }
    exists b'. rewrite Hl, length_insert. split_and!; try done.
    intros j. rewrite Hj. repeat case_decide; try lia; try done.
    + destruct (decide (j = i)) as [->|]; [|lia]. by cells.
    + by cells.
Qed.

(** [fill_move] hands the cells the successive states of [value]. *)
Lemma fill_move_in_block n : ∀ b i x,
  i + n ≤ length b →
  ∃ b', fill_move n b i x = Some (b', Nat.iter n moved_from x) ∧
        length b' = length b ∧
        ∀ j, b' !! j = if decide (i ≤ j < i + n)
                       then Some (Nat.iter (j - i) moved_from x) else b !! j.
Proof.
  induction n as [|n IH]; intros b i x Hlen; simpl.
  - exists b. split_and!; try done. intros j. case_decide; [lia|done].
  - rewrite cell_set_lt by lia. simpl.
    destruct (IH (<[i:=x]> b) (S i) (moved_from x)) as (b' & Hb' & Hl & Hj).
    { rewrite length_insert. lia. }
    exists b'. rewrite Hb', Hl, length_insert, <- Nat.iter_succ_r.
    split_and!; try done.
    intros j. rewrite Hj. repeat case_decide; try lia; try done.
    + replace (j - i) with (S (j - S i)) by lia. by rewrite Nat.iter_succ_r.
    + destruct (decide (j = i)) as [->|]; [|lia]. cells.
      by replace (i - i) with 0 by lia.
    + by cells.
Qed.

Lemma fill_move_Some n : ∀ b i x b' x',
  fill_move n b i x = Some (b', x') →
  length b' = length b ∧ (0 < n → i + n ≤ length b).
Proof.
  induction n as [|n IH]; intros b i x b' x'; simpl.
  - intros [= <- <-]. split; [done|lia].
  - destruct (cell_set b i x) as [b1|] eqn:E; simpl; [|done].
    apply cell_set_Some in E as [Hi ->]. intros Hb'.
    apply IH in Hb' as [Hl Hn]. rewrite length_insert in Hl, Hn.
    split; [done|]. intros _. destruct n; [lia|]. specialize (Hn ltac:(lia)). lia.
Qed.

(** [std_fill] writes [value] to [n] consecutive cells. *)
Lemma std_fill_in_block n : ∀ b i x,
  i + n ≤ length b →
  ∃ b', std_fill n b i x = Some b' ∧ length b' = length b ∧
        ∀ j, b' !! j = if decide (i ≤ j < i + n) then Some x else b !! j.
Proof.
  induction n as [|n IH]; intros b i x Hlen; simpl.
  - exists b. split_and!; try done. intros j. case_decide; [lia|done].
  - rewrite cell_set_lt by lia. simpl.
    destruct (IH (<[i:=x]> b) (S i) x) as (b' & -> & Hl & Hj).
    { rewrite length_insert. lia. }
    exists b'. rewrite Hl, length_insert. split_and!; try done.
    intros j. rewrite Hj. repeat case_decide; try lia; try done.
    + destruct (decide (j = i)) as [->|]; [|lia]. by cells.
    + by cells.
Qed.

(** [std_copy] copies [n] cells of [src] over [n] cells of [dst]. *)
Lemma std_copy_in_block n : ∀ src s dst d,
  s + n ≤ length src → d + n ≤ length dst →
  ∃ dst', std_copy n src s dst d = Some dst' ∧ length dst' = length dst ∧
          ∀ j, dst' !! j = if decide (d ≤ j < d + n)
                           then src !! (s + (j - d)) else dst !! j.
Proof.
  induction n as [|n IH]; intros src s dst d Hs Hd; simpl.
  - exists dst. split_and!; try done. intros j. case_decide; [lia|done].
  - destruct (cell_get_lt src s) as [x Hx]; [lia|]. rewrite Hx. simpl.
    rewrite cell_set_lt by lia. simpl.
    destruct (IH src (S s) (<[d:=x]> dst) (S d)) as (dst' & -> & Hl & Hj).
    { lia. } { rewrite length_insert. lia. }
    exists dst'. rewrite Hl, length_insert. split_and!; try done.
    intros j. rewrite Hj. repeat case_decide; try lia.
    + f_equal. lia.
    + destruct (decide (j = d)) as [->|]; [|lia]. cells.
      replace (s + (d - d)) with s by lia. done.
    + by cells.
Qed.

(** [std_copy_move] does the same and leaves the source cells moved
    from. *)
Lemma std_copy_move_in_block n : ∀ src s dst d,
  s + n ≤ length src → d + n ≤ length dst →
  ∃ src' dst', std_copy_move n src s dst d = Some (src', dst') ∧
               length src' = length src ∧ length dst' = length dst ∧
               (∀ j, dst' !! j = if decide (d ≤ j < d + n)
                                 then src !! (s + (j - d)) else dst !! j) ∧
               (∀ j, src' !! j = if decide (s ≤ j < s + n)
                                 then moved_from <$> src !! j else src !! j).
Proof.
  induction n as [|n IH]; intros src s dst d Hs Hd; simpl.
  - exists src, dst. split_and!; try done; intros j; case_decide; done || lia.
  - destruct (cell_get_lt src s) as [x Hx]; [lia|]. rewrite Hx. simpl.
    rewrite !cell_set_lt by lia. simpl.
    destruct (IH (<[s:=moved_from x]> src) (S s) (<[d:=x]> dst) (S d))
      as (src' & dst' & -> & Hls & Hld & Hj & Hk).
    { rewrite length_insert. lia. } { rewrite length_insert. lia. }
    exists src', dst'. rewrite Hls, Hld, !length_insert. split_and!; try done.
    + intros j. rewrite Hj. repeat case_decide; try lia.
      * cells. f_equal. lia.
      * destruct (decide (j = d)) as [->|]; [|lia]. cells.
        replace (s + (d - d)) with s by lia. done.
      * by cells.
    + intros j. rewrite Hk. repeat case_decide; try lia.
      * by cells.
      * destruct (decide (j = s)) as [->|]; [|lia]. cells.
        unfold cell_get in Hx. by rewrite Hx.
      * by cells.
Qed.

Lemma std_copy_move_Some n : ∀ src s dst d src' dst',
  std_copy_move n src s dst d = Some (src', dst') →
  length src' = length src ∧ length dst' = length dst ∧
  (0 < n → s + n ≤ length src ∧ d + n ≤ length dst).
Proof.
  induction n as [|n IH]; intros src s dst d src' dst'; simpl.
  - intros [= <- <-]. split_and!; try done. lia.
  - destruct (cell_get src s) as [x|] eqn:Ex; simpl; [|done].
    destruct (cell_set dst d x) as [dst1|] eqn:Ed; simpl; [|done].
    destruct (cell_set src s (moved_from x)) as [src1|] eqn:Es; simpl; [|done].
    apply cell_set_Some in Ed as [Hd ->]. apply cell_set_Some in Es as [Hs ->].
    intros Hr. apply IH in Hr as (Hls & Hld & Hn).
    rewrite length_insert in Hls, Hld, Hn. rewrite length_insert in Hn.
    split_and!; try done. intros _. destruct n; [lia|].
    specialize (Hn ltac:(lia)). lia.
Qed.

(** Moving [n] cells one place down inside a block (the loop of
    [Erase]). *)
Lemma std_copy_move_within_down n : ∀ b d,
  S d + n ≤ length b →
  ∃ b', std_copy_move_within n b (S d) d = Some b' ∧ length b' = length b ∧
        (∀ j, d ≤ j < d + n → b' !! j = b !! S j) ∧
        (∀ j, j < d ∨ d + n < j → b' !! j = b !! j).
Proof.
  induction n as [|n IH]; intros b d Hlen; simpl.
  - exists b. split_and!; try done. intros j ?. lia.
  - destruct (cell_get_lt b (S d)) as [x Hx]; [lia|]. rewrite Hx. simpl.
    rewrite cell_set_lt by lia. simpl.
    rewrite cell_set_lt by (rewrite length_insert; lia). simpl.
    destruct (IH (<[S d:=moved_from x]> (<[d:=x]> b)) (S d))
      as (b' & -> & Hl & Hin & Hout).
    { rewrite !length_insert. lia. }
    exists b'. rewrite Hl, !length_insert. split_and!; try done.
    + intros j Hj. destruct (decide (j = d)) as [->|].
      * rewrite Hout by lia. by cells.
      * rewrite Hin by lia. by cells.
    + intros j Hj. rewrite Hout by lia. by cells.
Qed.

(** Moving [n] cells one place up inside a block (the loop of
    [Insert]). *)
Lemma std_copy_backward_move_within_up n : ∀ b first,
  first + n < length b →
  ∃ b', std_copy_backward_move_within n b first (S (first + n)) = Some b' ∧
        length b' = length b ∧
        (∀ j, first < j ≤ first + n → b' !! j = b !! (j - 1)) ∧
        (∀ j, j < first ∨ first + n < j → b' !! j = b !! j).
Proof.
  induction n as [|n IH]; intros b first Hlen; simpl.
  - exists b. split_and!; try done. intros j ?. lia.
  - destruct (cell_get_lt b (first + n)) as [x Hx]; [lia|]. rewrite Hx. simpl.
    rewrite cell_set_lt by lia. simpl.
    rewrite cell_set_lt by (rewrite length_insert; lia). simpl.
    rewrite Nat.add_succ_r.
    destruct (IH (<[first + n:=moved_from x]> (<[S (first + n):=x]> b)) first)
      as (b' & -> & Hl & Hin & Hout).
    { rewrite !length_insert. lia. }
    exists b'. rewrite Hl, !length_insert. split_and!; try done.
    + intros j Hj. destruct (decide (j = S (first + n))) as [->|].
      * rewrite Hout by lia. cells.
        replace (S (first + n) - 1) with (first + n) by lia. symmetry. exact Hx.
      * rewrite Hin by lia. by cells.
    + intros j Hj. rewrite Hout by lia. by cells.
Qed.

(** Whatever the loops do, they never change the number of cells. *)
Lemma fill_default_length n : ∀ b i b',
  fill_default n b i = Some b' → length b' = length b.
Proof.
  induction n as [|n IH]; intros b i b'; simpl.
  - by intros [= <-].
  - destruct (cell_set b i Type_ctor) as [b1|] eqn:E; simpl; [|done].
    apply cell_set_Some in E as [_ ->]. intros Hb'.
    apply IH in Hb'. by rewrite length_insert in Hb'.
Qed.

Lemma std_fill_length n : ∀ b i x b',
  std_fill n b i x = Some b' → length b' = length b.
Proof.
  induction n as [|n IH]; intros b i x b'; simpl.
  - by intros [= <-].
  - destruct (cell_set b i x) as [b1|] eqn:E; simpl; [|done].
    apply cell_set_Some in E as [_ ->]. intros Hb'.
    apply IH in Hb'. by rewrite length_insert in Hb'.
Qed.

Lemma std_copy_length n : ∀ src s dst d dst',
  std_copy n src s dst d = Some dst' → length dst' = length dst.
Proof.
  induction n as [|n IH]; intros src s dst d dst'; simpl.
  - by intros [= <-].
  - destruct (cell_get src s) as [x|]; simpl; [|done].
    destruct (cell_set dst d x) as [dst1|] eqn:E; simpl; [|done].
    apply cell_set_Some in E as [_ ->]. intros Hb'.
    apply IH in Hb'. by rewrite length_insert in Hb'.
Qed.

Lemma std_copy_move_within_length n : ∀ b s d b',
  std_copy_move_within n b s d = Some b' → length b' = length b.
Proof.
  induction n as [|n IH]; intros b s d b'; simpl.
  - by intros [= <-].
  - destruct (cell_get b s) as [x|]; simpl; [|done].
    destruct (cell_set b d x) as [b1|] eqn:E1; simpl; [|done].
    destruct (cell_set b1 s (moved_from x)) as [b2|] eqn:E2; simpl; [|done].
    apply cell_set_Some in E1 as [_ ->]. apply cell_set_Some in E2 as [_ ->].
    intros Hb'. apply IH in Hb'. by rewrite !length_insert in Hb'.
Qed.

Lemma std_copy_backward_move_within_length n : ∀ b first d_last b',
  std_copy_backward_move_within n b first d_last = Some b' → length b' = length b.
Proof.
  induction n as [|n IH]; intros b first d_last b'; simpl.
  - by intros [= <-].
  - destruct d_last as [|d']; [done|].
    destruct (cell_get b (first + n)) as [x|]; simpl; [|done].
    destruct (cell_set b d' x) as [b1|] eqn:E1; simpl; [|done].
    destruct (cell_set b1 (first + n) (moved_from x)) as [b2|] eqn:E2; simpl; [|done].
    apply cell_set_Some in E1 as [_ ->]. apply cell_set_Some in E2 as [_ ->].
    intros Hb'. apply IH in Hb'. by rewrite !length_insert in Hb'.
Qed.

End BlockFacts.

(** * Facts about the container *)

Section Allocation.

Context {T : Type} {MT : Movable T} {FS : FreeStore T}.

Lemma ArrayPtr_new_Some (n : Z) (b : list T) :
  0 <= n -> ArrayPtr_new n = Some b ->
  Z.of_nat (length b) = n /\ n <= SizeT.PTRDIFF_MAX.
Proof.
  unfold ArrayPtr_new. intros Hn.
  destruct (Z.eqb_spec n 0) as [->|Hne].
  - intros [= <-]. unfold SizeT.PTRDIFF_MAX. simpl. lia.
  - destruct (Z.leb_spec n SizeT.PTRDIFF_MAX); simpl; [|done].
    destruct (heap_grants n); [|done].
    intros [= <-]. rewrite length_fmap, length_seq. lia.
Qed.

Lemma ArrayPtr_set_Some (b : list T) (i : Z) (x : T) (b' : list T) :
  ArrayPtr_set b i x = Some b' <->
  0 <= i < Z.of_nat (length b) /\ b' = <[Z.to_nat i:=x]> b.
Proof.
  unfold ArrayPtr_set. destruct (Z.leb_spec 0 i).
  - rewrite cell_set_Some. split; intros [? ->]; (split; [lia|done]).
  - split; [done|]. intros [? _]. lia.
Qed.

Lemma ArrayPtr_set_in_block (b : list T) (i : Z) (x : T) :
  0 <= i < Z.of_nat (length b) ->
  ArrayPtr_set b i x = Some (<[Z.to_nat i:=x]> b).
Proof. intros. by apply ArrayPtr_set_Some. Qed.

End Allocation.

Section Sequences.

Context {T : Type}.
Local Open Scope nat_scope.
Implicit Types (l : list T) (x : T) (k p j : nat).

Lemma take_pointwise l1 l2 k :
  (∀ j, j < k → l1 !! j = l2 !! j) → take k l1 = take k l2.
Proof.
  intros Hj. apply list_eq. intros j. destruct (decide (j < k)).
  - rewrite !lookup_take_lt by done. by apply Hj.
  - by rewrite !lookup_take_ge by lia.
Qed.

Lemma lookup_insert_at l p x j :
  p ≤ length l →
  (take p l ++ x :: drop p l) !! j =
    if decide (j < p) then l !! j
    else if decide (j = p) then Some x else l !! (j - 1).
Proof.
  intros Hp. rewrite lookup_app, length_take_le by done.
  repeat case_decide; subst.
  - rewrite lookup_take_lt by done.
    destruct (l !! j) eqn:E; [done|]. apply lookup_ge_None in E. lia.
  - rewrite lookup_take_ge by lia. by replace (p - p) with 0 by lia.
  - rewrite lookup_take_ge by lia.
    replace (j - p) with (S (j - p - 1)) by lia. simpl.
    rewrite lookup_drop. f_equal. lia.
Qed.

Lemma lookup_erase_at l p j :
  p ≤ length l →
  (take p l ++ drop (S p) l) !! j = if decide (j < p) then l !! j else l !! S j.
Proof.
  intros Hp. rewrite lookup_app, length_take_le by done.
  case_decide.
  - rewrite lookup_take_lt by done.
    destruct (l !! j) eqn:E; [done|]. apply lookup_ge_None in E. lia.
  - rewrite lookup_take_ge by lia. rewrite lookup_drop. f_equal. lia.
Qed.

Lemma erase_at_insert_at l p x :
  p ≤ length l →
  take p (take p l ++ x :: drop p l) ++ drop (S p) (take p l ++ x :: drop p l) = l.
Proof.
  intros Hp.
  rewrite take_app_length' by (by rewrite length_take_le).
  rewrite drop_app, length_take_le by done.
  rewrite (drop_ge (take p l)) by (rewrite length_take_le; lia).
  replace (S p - p) with 1 by lia. simpl. rewrite drop_0. apply take_drop.
Qed.

End Sequences.

Lemma SizeT_wrap_small (z : Z) : 0 <= z < SizeT.modulus -> SizeT.wrap z = z.
Proof. apply Z.mod_small. Qed.

Lemma SizeT_wrap_range (z : Z) : 0 <= SizeT.wrap z < SizeT.modulus.
Proof. apply Z.mod_pos_bound. unfold SizeT.modulus. lia. Qed.

Lemma SizeT_PTRDIFF_MAX_double : 2 * SizeT.PTRDIFF_MAX + 1 < SizeT.modulus.
Proof. unfold SizeT.PTRDIFF_MAX, SizeT.modulus. lia. Qed.

Section Growth.

Context {T : Type} {MT : Movable T} {FS : FreeStore T}.
Implicit Types (v : SimpleVector T) (x : T).

Lemma valid_double v :
  valid v -> SizeT.mul (capacity_ v) 2 = 2 * capacity_ v.
Proof.
  intros (Hs & Hc & Hl). unfold SizeT.mul. rewrite SizeT_wrap_small; [lia|].
  pose proof SizeT_PTRDIFF_MAX_double. lia.
Qed.

Lemma valid_succ v z :
  valid v -> 0 <= z <= capacity_ v -> SizeT.add z 1 = z + 1.
Proof.
  intros (Hs & Hc & Hl) Hz. unfold SizeT.add. rewrite SizeT_wrap_small; [lia|].
  pose proof SizeT_PTRDIFF_MAX_double. lia.
Qed.

(** [Resize] on a valid vector, when the store serves the request it may
    make. *)
Lemma Resize_done v n :
  valid v -> 0 <= n ->
  (n <= capacity_ v \/ is_Some (ArrayPtr_new (Z.max n (2 * capacity_ v)))) ->
  exists v', Resize v n = Done () v' /\ valid v' /\ size_ v' = n /\
    capacity_ v' =
      (if n <=? capacity_ v then capacity_ v else Z.max n (2 * capacity_ v)) /\
    (forall j, (j < Z.to_nat (size_ v))%nat -> items_ v' !! j = items_ v !! j) /\
    (forall j, (Z.to_nat (size_ v) <= j < Z.to_nat n)%nat ->
               items_ v' !! j = Some Type_ctor).
Proof.
  intros Hv Hn Halloc. pose proof Hv as (Hs & Hc & Hl). unfold Resize.
  destruct (Z.leb_spec n (capacity_ v)) as [Hle|Hgt].
  - destruct (Z.leb_spec n (size_ v)) as [Hsh|Hgr].
    + eexists. split; [done|]. unfold valid. simpl.
      split_and!; try done; try lia; intros j ?; lia.
    + destruct (fill_default_in_block (Z.to_nat (n - size_ v)) (items_ v)
                  (Z.to_nat (size_ v))) as (b' & -> & Hlb & Hj); [lia|].
      eexists. split; [done|]. unfold valid. simpl. rewrite Hlb.
      split_and!; try done; try lia.
      * intros j ?. rewrite Hj. case_decide; [lia|done].
      * intros j ?. rewrite Hj. case_decide; [done|lia].
  - rewrite (valid_double v Hv).
    destruct Halloc as [?|[temp Ht]]; [lia|]. rewrite Ht.
    apply ArrayPtr_new_Some in Ht as [Hlt Hmax]; [|lia].
    destruct (std_copy_move_in_block (Z.to_nat (size_ v)) (items_ v) 0 temp 0)
      as (old & t1 & -> & _ & Hl1 & Hj1 & _); [lia|lia|].
    destruct (fill_default_in_block (Z.to_nat (n - size_ v)) t1
                (Z.to_nat (size_ v))) as (t2 & -> & Hl2 & Hj2); [lia|].
    eexists. split; [done|]. unfold valid. simpl. rewrite Hl2, Hl1.
    split_and!; try done; try lia.
    * intros j ?. rewrite Hj2, Hj1. repeat case_decide; try lia.
      f_equal. lia.
    * intros j ?. rewrite Hj2. case_decide; [done|lia].
Qed.

(** C3.  [Resize(n)] on a valid vector, the store serving the request
    made when [n] exceeds the capacity: the size becomes [n] and the
    capacity is at least [n]; the elements at offsets below
    [min(oldSize, n)] are unchanged; when growing, the elements at
    offsets [oldSize .. n) equal [Type()]; and when [n] exceeds the old
    capacity the new capacity is [max(n, oldCapacity * 2)]. *)
Theorem Resize_spec v n :
  valid v -> 0 <= n ->
  (n <= GetCapacity v \/
   is_Some (ArrayPtr_new (Z.max n (GetCapacity v * 2)))) ->
  exists v', Resize v n = Done () v' /\
    GetSize v' = n /\ GetCapacity v' >= n /\
    (forall i, 0 <= i < Z.min (GetSize v) n -> deref v' i = deref v i) /\
    (forall i, GetSize v <= i < n -> deref v' i = Some Type_ctor) /\
    (n > GetCapacity v -> GetCapacity v' = Z.max n (GetCapacity v * 2)).
Proof.
  unfold GetSize, GetCapacity. intros Hv Hn Halloc.
  replace (capacity_ v * 2) with (2 * capacity_ v) in * by lia.
  destruct (Resize_done v n Hv Hn Halloc) as (v' & Hr & Hv' & Hsz & Hcap & Hold & Hnew).
  destruct Hv' as (Hs' & _). destruct Hv as (Hs & _).
  exists v'. split_and!; try done; try lia.
  - intros i Hi. unfold deref, cell_get.
    destruct (Z.leb_spec 0 i); [|lia]. apply Hold. lia.
  - intros i Hi. unfold deref, cell_get.
    destruct (Z.leb_spec 0 i); [|lia]. apply Hnew. lia.
  - intros Hgt. rewrite Hcap. destruct (Z.leb_spec n (capacity_ v)); [lia|done].
Qed.

Lemma ArrayPtr_new_granted (n : Z) :
  n <= SizeT.PTRDIFF_MAX -> heap_grants n = true -> is_Some (ArrayPtr_new n).
Proof.
  intros Hn Hg. unfold ArrayPtr_new. destruct (n =? 0); [by eexists|].
  rewrite Hg. destruct (Z.leb_spec n SizeT.PTRDIFF_MAX); [by eexists|lia].
Qed.

(** [PushBack] on a valid vector, when the store serves the request it may
    make. *)
Lemma PushBack_done v x :
  valid v ->
  (size_ v < capacity_ v \/
   is_Some (ArrayPtr_new (Z.max (capacity_ v + 1) (2 * capacity_ v)))) ->
  exists v', PushBack v (Outside x) = Done () v' /\ valid v' /\
    size_ v' = size_ v + 1 /\
    capacity_ v' =
      (if size_ v =? capacity_ v then Z.max (capacity_ v + 1) (2 * capacity_ v)
       else capacity_ v) /\
    elements v' = elements v ++ [x].
Proof.
  intros Hv Halloc. pose proof Hv as (Hs & Hc & Hl). unfold PushBack, read_arg.
  destruct (Z.eqb_spec (size_ v) (capacity_ v)) as [Heq|Hne].
  - rewrite (valid_succ v (capacity_ v) Hv) by lia.
    destruct (Resize_done v (capacity_ v + 1) Hv) as
      (v' & -> & Hv' & Hsz & Hcap & Hold & _); [lia|right|].
    { destruct Halloc as [?|?]; [lia|done]. }
    destruct (Z.leb_spec (capacity_ v + 1) (capacity_ v)); [lia|].
    pose proof Hv' as (Hs' & Hc' & Hl').
    rewrite ArrayPtr_set_in_block by lia.
    eexists. split; [done|]. unfold valid, elements. simpl.
    rewrite length_insert, Hsz, Hcap.
    split_and!; try done; try lia.
    replace (Z.to_nat (capacity_ v + 1)) with (S (Z.to_nat (size_ v))) by lia.
    rewrite (take_S_r _ _ x) by (apply list_lookup_insert_eq; lia).
    rewrite take_insert_ge by lia. f_equal. by apply take_pointwise.
  - rewrite (valid_succ v (size_ v) Hv) by lia. simpl.
    rewrite ArrayPtr_set_in_block by lia.
    eexists. split; [done|]. unfold valid, elements. simpl.
    rewrite length_insert. split_and!; try done; try lia.
    replace (Z.to_nat (size_ v + 1)) with (S (Z.to_nat (size_ v))) by lia.
    rewrite (take_S_r _ _ x) by (apply list_lookup_insert_eq; lia).
    by rewrite take_insert_ge by lia.
Qed.

(** A run of [PushBack] calls keeps the capacity within twice the size, so
    a store serving requests of up to twice the final size lets every call
    return. *)
Lemma push_all_done xs : forall v,
  valid v -> capacity_ v <= 2 * size_ v ->
  2 * (size_ v + Z.of_nat (length xs)) <= SizeT.PTRDIFF_MAX ->
  (forall n, 0 < n <= 2 * (size_ v + Z.of_nat (length xs)) -> heap_grants n = true) ->
  exists v', push_all v xs = Done () v' /\ valid v' /\
    capacity_ v' <= 2 * size_ v' /\
    size_ v' = size_ v + Z.of_nat (length xs) /\
    elements v' = elements v ++ xs.
Proof.
  induction xs as [|x xs IH]; intros v Hv Hcap Hmax Hg; simpl.
  - exists v. split_and!; try done; try lia. by rewrite app_nil_r.
  - pose proof Hv as (Hs & Hc & Hl). simpl in Hmax, Hg.
    destruct (PushBack_done v x Hv) as (v1 & -> & Hv1 & Hs1 & Hc1 & He1).
    { destruct (decide (size_ v < capacity_ v)); [by left|right].
      apply ArrayPtr_new_granted; [lia|apply Hg; lia]. }
    assert (capacity_ v1 <= 2 * size_ v1).
    { rewrite Hc1, Hs1. destruct (Z.eqb_spec (size_ v) (capacity_ v)); lia. }
    destruct (IH v1 Hv1) as (v' & -> & Hv' & Hc' & Hs' & He'); [done|lia| |].
    { intros n Hn. apply Hg. lia. }
    exists v'. split_and!; try done; try lia.
    by rewrite He', He1, <- app_assoc.
Qed.

(** Reading [item] when there is room: nothing has moved, the block is
    the one the reference was taken from. *)
Lemma PushBack_reads_room v (item : Arg T) x :
  size_ v <> capacity_ v -> arg_value v item = Some x ->
  PushBack v item = PushBack v (Outside x).
Proof.
  unfold PushBack, arg_value. intros Hne Hx.
  destruct (Z.eqb_spec (size_ v) (capacity_ v)); [done|]. simpl. by rewrite Hx.
Qed.

(** [PushBack_done] for a reference argument: the vector has room, or
    the argument is an object outside the vector. *)
Lemma PushBack_done_arg v (item : Arg T) x :
  valid v -> arg_value v item = Some x ->
  (size_ v < capacity_ v \/
   (item = Outside x /\
    is_Some (ArrayPtr_new (Z.max (capacity_ v + 1) (2 * capacity_ v))))) ->
  exists v', PushBack v item = Done () v' /\ valid v' /\
    size_ v' = size_ v + 1 /\
    capacity_ v' =
      (if size_ v =? capacity_ v then Z.max (capacity_ v + 1) (2 * capacity_ v)
       else capacity_ v) /\
    elements v' = elements v ++ [x].
Proof.
  intros Hv Hx Hside.
  assert (Hout : PushBack v item = PushBack v (Outside x)).
  { destruct Hside as [Hlt|[-> _]]; [|done].
    apply PushBack_reads_room; [lia|done]. }
  rewrite Hout. apply PushBack_done; [done|].
  destruct Hside as [Hlt|[_ Hi]]; [by left|by right].
Qed.

(** Reading [item] on a full vector: [Resize] has freed the block an
    element of the vector lived in, so the call does not return. *)
Lemma PushBack_own_full v r :
  valid v -> size_ v = capacity_ v ->
  (forall v', PushBack v (Own r) <> Done () v') /\
  (is_Some (ArrayPtr_new (Z.max (capacity_ v + 1) (2 * capacity_ v))) ->
   PushBack v (Own r) = Undefined).
Proof.
  intros Hv Heq. pose proof Hv as (Hs & Hc & Hl).
  assert (Hdead : PushBack v (Own r) =
                  match Resize v (capacity_ v + 1) with
                  | Done _ _ => Undefined
                  | other => other
                  end).
  { unfold PushBack, read_arg, Resize_frees.
    destruct (Z.eqb_spec (size_ v) (capacity_ v)); [|done].
    rewrite (valid_succ v (capacity_ v) Hv) by lia.
    destruct (Z.leb_spec (capacity_ v + 1) (capacity_ v)); [lia|]. simpl.
    by destruct (Resize v (capacity_ v + 1)). }
  rewrite Hdead. split.
  - intros v'. by destruct (Resize v (capacity_ v + 1)).
  - intros Hi. destruct (Resize_done v (capacity_ v + 1) Hv) as (v' & -> & _);
      [lia|by right|done].
Qed.

(** [PushBack] appends exactly one element when its argument is an object
    outside the vector, or when the vector has room.  On a valid vector
    whose request, if any, is served: the size grows by one and the
    logical sequence gains the value at its end; when [size == capacity]
    the new counters are those [Resize(capacity + 1)] leaves, so that the
    capacity is [max(capacity + 1, capacity * 2)], and otherwise the
    capacity is untouched.  Consequently, pushing the elements of [xs]
    onto an empty vector gives, after each of the [k] first calls, size
    [k], a capacity that is at least the size, and the [k] first elements
    of [xs]. *)
Theorem PushBack_spec :
  (forall v (item : Arg T) x,
     valid v -> arg_value v item = Some x ->
     (GetSize v < GetCapacity v \/
      (item = Outside x /\
       is_Some (ArrayPtr_new (Z.max (GetCapacity v + 1) (GetCapacity v * 2))))) ->
     exists v', PushBack v item = Done () v' /\
       GetSize v' = GetSize v + 1 /\
       elements v' = elements v ++ [x] /\
       (GetSize v = GetCapacity v ->
        exists r, Resize v (GetCapacity v + 1) = Done () r /\
          GetSize v' = GetSize r /\ GetCapacity v' = GetCapacity r /\
          GetCapacity v' = Z.max (GetCapacity v + 1) (GetCapacity v * 2)) /\
       (GetSize v <> GetCapacity v -> GetCapacity v' = GetCapacity v)) /\
  (forall xs,
     2 * Z.of_nat (length xs) <= SizeT.PTRDIFF_MAX ->
     (forall n, 0 < n <= 2 * Z.of_nat (length xs) -> heap_grants n = true) ->
     forall k, (k <= length xs)%nat ->
     exists vk, push_all ctor_default (take k xs) = Done () vk /\
       GetSize vk = Z.of_nat k /\ GetCapacity vk >= GetSize vk /\
       elements vk = take k xs).
Proof.
  unfold GetSize, GetCapacity. split.
  - intros v item x Hv Hx Hside.
    replace (capacity_ v * 2) with (2 * capacity_ v) in * by lia.
    assert (Hout : PushBack v item = PushBack v (Outside x)).
    { destruct Hside as [Hlt|[-> _]]; [|done].
      apply PushBack_reads_room; [lia|done]. }
    assert (Halloc : size_ v < capacity_ v \/
              is_Some (ArrayPtr_new (Z.max (capacity_ v + 1) (2 * capacity_ v)))).
    { destruct Hside as [Hlt|[_ Hi]]; [by left|by right]. }
    rewrite Hout.
    destruct (PushBack_done v x Hv Halloc) as (v' & Hp & Hv' & Hsz & Hcap & Hel).
    exists v'. split_and!; try done.
    + intros Heq. pose proof Hv as (Hs & Hc & Hl).
      destruct (Resize_done v (capacity_ v + 1) Hv) as
        (r & Hr & _ & Hrs & Hrc & _); [lia| |].
      { right. destruct Halloc as [?|?]; [lia|done]. }
      exists r. rewrite Hsz, Hcap, Hrs, Hrc.
      destruct (Z.eqb_spec (size_ v) (capacity_ v)); [|done].
      destruct (Z.leb_spec (capacity_ v + 1) (capacity_ v)); [lia|].
      split_and!; try done; lia.
    + intros Hne. rewrite Hcap.
      by destruct (Z.eqb_spec (size_ v) (capacity_ v)).
  - intros xs Hmax Hg k Hk.
    destruct (push_all_done (take k xs) ctor_default) as (vk & Hp & Hv & _ & Hs & He).
    + unfold valid, ctor_default, SizeT.PTRDIFF_MAX. simpl. lia.
    + simpl. lia.
    + rewrite length_take_le by done. simpl. lia.
    + intros n. rewrite length_take_le by done. simpl. intros. apply Hg. lia.
    + exists vk. rewrite length_take_le in Hs by done. simpl in Hs, He.
      destruct Hv as (? & _). split_and!; try done. lia.
Qed.

End Growth.

Section InsertErase.

Context {T : Type} {MT : Movable T} {FS : FreeStore T}.
Implicit Types (v : SimpleVector T) (x : T).

(** The sized constructor, when the store serves its request: cell [j]
    holds [Type()] after [j] moves out of it. *)
Lemma ctor_sized_done n :
  0 <= n -> is_Some (ArrayPtr_new n) ->
  exists v, ctor_sized n = Done v () /\
    size_ v = n /\ capacity_ v = n /\
    Z.of_nat (length (items_ v)) = n /\ n <= SizeT.PTRDIFF_MAX /\
    forall j, (j < Z.to_nat n)%nat ->
              items_ v !! j = Some (Nat.iter j moved_from Type_ctor).
Proof.
  intros Hn [items Hi]. unfold ctor_sized, ctor_fill_move. rewrite Hi.
  apply ArrayPtr_new_Some in Hi as [Hl Hmax]; [|done].
  destruct (fill_move_in_block (Z.to_nat n) items 0 Type_ctor)
    as (b' & -> & Hl' & Hj); [lia|].
  eexists. split; [done|]. simpl. rewrite Hl'. split_and!; try done.
  intros j Hlt. rewrite Hj. case_decide; [|lia]. by rewrite Nat.sub_0_r.
Qed.

Lemma ctor_sized_bad_alloc n :
  ArrayPtr_new n = None -> ctor_sized n = Thrown bad_alloc ().
Proof. intros Hi. unfold ctor_sized, ctor_fill_move. by rewrite Hi. Qed.

(** [Insert] on a valid vector at a position of [begin() .. end()], when
    the store serves the request it may make. *)
Lemma Insert_done v pos x :
  valid v -> 0 <= pos <= size_ v ->
  (size_ v < capacity_ v \/
   is_Some (ArrayPtr_new (Z.max (2 * capacity_ v) 1))) ->
  exists v', Insert v pos (Outside x) = Done pos v' /\ valid v' /\
    size_ v' = size_ v + 1 /\
    capacity_ v' =
      (if size_ v <? capacity_ v then capacity_ v else Z.max (2 * capacity_ v) 1) /\
    elements v' =
      take (Z.to_nat pos) (elements v) ++ x :: drop (Z.to_nat pos) (elements v).
Proof.
  intros Hv Hpos Halloc. pose proof Hv as (Hs & Hc & Hl).
  unfold Insert, read_arg, begin_, end_. rewrite Z.sub_0_r, !Z.add_0_l.
  destruct (Z.leb_spec 0 pos); [|lia].
  destruct (Z.leb_spec pos (size_ v)); [|lia]. simpl.
  assert (Hp : (Z.to_nat pos <= length (elements v))%nat).
  { unfold elements. rewrite length_take_le; lia. }
  destruct (Z.ltb_spec (size_ v) (capacity_ v)) as [Hroom|Hfull].
  - replace (Z.to_nat (size_ v + 1))
      with (S (Z.to_nat pos + Z.to_nat (size_ v - pos))) by lia.
    destruct (std_copy_backward_move_within_up (Z.to_nat (size_ v - pos))
                (items_ v) (Z.to_nat pos)) as (b1 & -> & Hl1 & Hin & Hout); [lia|].
    rewrite ArrayPtr_set_in_block by lia.
    rewrite (valid_succ v (size_ v) Hv) by lia.
    eexists. split; [done|]. unfold valid. simpl. rewrite length_insert, Hl1.
    split_and!; try done; try lia.
    apply list_eq. intros j. rewrite lookup_insert_at by done.
    unfold elements. simpl. rewrite !lookup_take, list_lookup_insert, Hl1.
    repeat case_decide; try lia; try done.
    + by rewrite Hout by lia.
    + rewrite Hin by lia. done.
  - rewrite (valid_double v Hv).
    destruct Halloc as [?|Halloc]; [lia|].
    destruct (ctor_sized_done (Z.max (2 * capacity_ v) 1) ltac:(lia) Halloc)
      as (temp & -> & Hts & Htc & Htl & Hmax & _).
    destruct (std_copy_move_in_block (Z.to_nat pos) (items_ v) 0 (items_ temp) 0)
      as (old1 & t1 & -> & Hlo1 & Hl1 & Hj1 & Hk1); [lia|lia|].
    rewrite (valid_succ v (size_ v) Hv) by lia.
    destruct (Z.ltb_spec pos (size_ v + 1)); [|lia].
    rewrite ArrayPtr_set_in_block by lia.
    destruct (std_copy_move_in_block (Z.to_nat (size_ v - pos)) old1 (Z.to_nat pos)
                (<[Z.to_nat pos:=x]> t1) (Z.to_nat (pos + 1)))
      as (old2 & t3 & -> & _ & Hl3 & Hj3 & _);
      [lia|rewrite length_insert; lia|].
    rewrite length_insert in Hl3. simpl.
    eexists. split; [done|]. unfold valid. simpl. rewrite Hl3, Hl1.
    split_and!; try done; try lia.
    apply list_eq. intros j. rewrite lookup_insert_at by done.
    unfold elements. simpl. rewrite !lookup_take, Hj3, list_lookup_insert, Hk1, Hj1.
    repeat case_decide; try lia; try done.
    + f_equal. lia.
    + f_equal. lia.
Qed.

(** [Insert] reads its argument from a block that is still owned: an
    argument that designates something when the call starts is read, and
    the call goes on as with an outside object of the value read. *)
Lemma Insert_reads v pos (value : Arg T) :
  valid v -> 0 <= pos <= size_ v -> is_Some (arg_value v value) ->
  exists x, Insert v pos value = Insert v pos (Outside x).
Proof.
  intros Hv Hpos Hread. pose proof Hv as (Hs & Hc & Hl).
  destruct value as [x|r]; [by exists x|].
  unfold arg_value, read_arg in Hread. simpl in Hread.
  destruct (Z.leb_spec 0 r) as [Hr|]; [|by destruct Hread].
  apply lookup_lt_is_Some in Hread.
  unfold Insert, read_arg, begin_, end_. rewrite Z.sub_0_r, !Z.add_0_l.
  destruct (Z.leb_spec 0 pos); [|lia].
  destruct (Z.leb_spec pos (size_ v)); [|lia].
  destruct (Z.leb_spec 0 r); [|lia]. simpl.
  destruct (Z.ltb_spec (size_ v) (capacity_ v)) as [Hroom|Hfull].
  - replace (Z.to_nat (size_ v + 1))
      with (S (Z.to_nat pos + Z.to_nat (size_ v - pos))) by lia.
    destruct (std_copy_backward_move_within_up (Z.to_nat (size_ v - pos))
                (items_ v) (Z.to_nat pos)) as (b1 & -> & Hl1 & _); [lia|].
    destruct (cell_get_lt b1 (Z.to_nat r)) as [x Hx]; [lia|].
    exists x. by rewrite Hx.
  - rewrite (valid_double v Hv).
    destruct (ArrayPtr_new (Z.max (2 * capacity_ v) 1)) as [b|] eqn:Hnew.
    + destruct (ctor_sized_done (Z.max (2 * capacity_ v) 1) ltac:(lia)
                  (mk_is_Some _ _ Hnew)) as (temp & -> & Hts & Htc & Htl & Hmax & _).
      destruct (std_copy_move_in_block (Z.to_nat pos) (items_ v) 0 (items_ temp) 0)
        as (old1 & t1 & -> & Hlo1 & _); [lia|lia|].
      destruct (cell_get_lt old1 (Z.to_nat r)) as [x Hx]; [lia|].
      exists x. by rewrite Hx.
    + exists Type_ctor. by rewrite (ctor_sized_bad_alloc _ Hnew).
Qed.

(** What [Insert] reads through a reference to an element of the vector
    itself: with room the elements from [pos] on have been shifted by
    then, and in a full vector the elements before [pos] have been moved
    out. *)
Lemma Insert_reads_own v pos r :
  valid v -> 0 <= pos <= size_ v -> 0 <= r < size_ v ->
  exists x, Insert v pos (Own r) = Insert v pos (Outside x) /\
    (size_ v < capacity_ v -> r < pos -> items_ v !! Z.to_nat r = Some x) /\
    (size_ v < capacity_ v -> pos < r ->
     items_ v !! Z.to_nat (r - 1) = Some x) /\
    (capacity_ v <= size_ v -> pos <= r -> items_ v !! Z.to_nat r = Some x) /\
    (capacity_ v <= size_ v -> r < pos ->
     moved_from <$> items_ v !! Z.to_nat r = Some x).
Proof.
  intros Hv Hpos Hr. pose proof Hv as (Hs & Hc & Hl).
  unfold Insert, read_arg, begin_, end_. rewrite Z.sub_0_r, !Z.add_0_l.
  destruct (Z.leb_spec 0 pos); [|lia].
  destruct (Z.leb_spec pos (size_ v)); [|lia].
  destruct (Z.leb_spec 0 r); [|lia]. simpl.
  destruct (Z.ltb_spec (size_ v) (capacity_ v)) as [Hroom|Hfull].
  - replace (Z.to_nat (size_ v + 1))
      with (S (Z.to_nat pos + Z.to_nat (size_ v - pos))) by lia.
    destruct (std_copy_backward_move_within_up (Z.to_nat (size_ v - pos))
                (items_ v) (Z.to_nat pos)) as (b1 & -> & Hl1 & Hin & Hout); [lia|].
    destruct (cell_get_lt b1 (Z.to_nat r)) as [x Hx]; [lia|].
    exists x. rewrite Hx. unfold cell_get in Hx.
    split_and!; try done; try lia.
    + intros _ Hlt. rewrite <- Hx. symmetry. apply Hout. lia.
    + intros _ Hlt. rewrite <- Hx, Hin by lia. f_equal. lia.
  - assert (Hfacts : forall (old1 : list T) x,
              (forall j, old1 !! j =
                 if decide (0 <= j < 0 + Z.to_nat pos)%nat
                 then moved_from <$> items_ v !! j else items_ v !! j) ->
              old1 !! Z.to_nat r = Some x ->
              (pos <= r -> items_ v !! Z.to_nat r = Some x) /\
              (r < pos -> moved_from <$> items_ v !! Z.to_nat r = Some x)).
    { intros old1 x Hk Hx. rewrite Hk in Hx. case_decide; split; (done || lia). }
    rewrite (valid_double v Hv).
    destruct (ArrayPtr_new (Z.max (2 * capacity_ v) 1)) as [b|] eqn:Hnew.
    + destruct (ctor_sized_done (Z.max (2 * capacity_ v) 1) ltac:(lia)
                  (mk_is_Some _ _ Hnew)) as (temp & -> & Hts & Htc & Htl & Hmax & _).
      destruct (std_copy_move_in_block (Z.to_nat pos) (items_ v) 0 (items_ temp) 0)
        as (old1 & t1 & -> & Hlo1 & _ & _ & Hk1); [lia|lia|].
      destruct (cell_get_lt old1 (Z.to_nat r)) as [x Hx]; [lia|].
      exists x. rewrite Hx. unfold cell_get in Hx.
      destruct (Hfacts old1 x Hk1 Hx) as [Hge Hlt].
      split_and!; try done; try lia; auto.
    + destruct (cell_get_lt (items_ v) (Z.to_nat r)) as [y Hy]; [lia|].
      unfold cell_get in Hy. rewrite (ctor_sized_bad_alloc _ Hnew).
      exists (if decide (r < pos) then moved_from y else y).
      split_and!; try done; try lia.
      * intros _ Hle. rewrite Hy. by case_decide; [lia|].
      * intros _ Hlt. rewrite Hy. by case_decide; [|lia].
Qed.

(** At [end()] of a vector with room nothing is shifted, and the argument
    is read as it was when the call started. *)
Lemma Insert_reads_end v (value : Arg T) x :
  size_ v < capacity_ v -> arg_value v value = Some x ->
  Insert v (end_ v) value = Insert v (end_ v) (Outside x).
Proof.
  intros Hroom Hx. unfold Insert, begin_, end_.
  destruct (_ && _); [|done].
  destruct (Z.ltb_spec (size_ v) (capacity_ v)); [|lia].
  replace (size_ v - (0 + (size_ v - 0))) with 0 by lia. simpl.
  unfold arg_value in Hx. by rewrite Hx.
Qed.

(** [Insert] throws only from the constructor of [temp], before anything
    is moved or read. *)
Lemma Insert_Thrown v pos (value : Arg T) e v' :
  Insert v pos value = Thrown e v' ->
  e = bad_alloc /\ v' = v /\ (size_ v <? capacity_ v) = false /\
  ArrayPtr_new (Z.max (SizeT.mul (capacity_ v) 2) 1) = None.
Proof.
  unfold Insert. destruct (_ && _); [|done].
  destruct (_ <? _).
  - destruct (std_copy_backward_move_within _ _ _ _); [|done].
    destruct (read_arg _ _ _); [|done]. by destruct (ArrayPtr_set _ _ _).
  - unfold ctor_sized, ctor_fill_move. destruct (ArrayPtr_new _).
    + destruct (fill_move _ _ _ _) as [[??]|]; [|done].
      destruct (std_copy_move _ _ _ _ _) as [[??]|]; [|done].
      destruct (_ <? _); [|done]. destruct (read_arg _ _ _); [|done].
      destruct (ArrayPtr_set _ _ _); [|done].
      by destruct (std_copy_move _ _ _ _ _) as [[??]|].
    + by intros [= <- <-].
Qed.

(** [Erase] on a valid vector at a position of [begin() .. end()). *)
Lemma Erase_done v pos :
  valid v -> 0 <= pos < size_ v ->
  exists v', Erase v pos = Done pos v' /\ valid v' /\
    size_ v' = size_ v - 1 /\ capacity_ v' = capacity_ v /\
    elements v' =
      take (Z.to_nat pos) (elements v) ++ drop (S (Z.to_nat pos)) (elements v).
Proof.
  intros Hv Hpos. pose proof Hv as (Hs & Hc & Hl).
  unfold Erase, begin_, end_. rewrite Z.sub_0_r, !Z.add_0_l.
  destruct (Z.leb_spec 0 pos); [|lia].
  destruct (Z.ltb_spec pos (size_ v)); [|lia]. simpl.
  assert (Hp : (Z.to_nat pos <= length (elements v))%nat).
  { unfold elements. rewrite length_take_le; lia. }
  replace (Z.to_nat (pos + 1)) with (S (Z.to_nat pos)) by lia.
  destruct (std_copy_move_within_down (Z.to_nat (size_ v - (pos + 1)))
              (items_ v) (Z.to_nat pos)) as (b' & -> & Hl' & Hin & Hout); [lia|].
  assert (Hsub : SizeT.sub (size_ v) 1 = size_ v - 1).
  { unfold SizeT.sub. apply SizeT_wrap_small.
    pose proof SizeT_PTRDIFF_MAX_double. lia. }
  rewrite Hsub.
  eexists. split; [done|]. unfold valid. simpl. rewrite Hl'.
  split_and!; try done; try lia.
  apply list_eq. intros j. rewrite lookup_erase_at by done.
  unfold elements. simpl. rewrite !lookup_take.
  repeat case_decide; try lia; try done.
  - by rewrite Hout by lia.
  - by rewrite Hin by lia.
Qed.

(** C7.  For a valid vector, a position of [begin() .. end()] and a value
    (an object outside the vector, or a reference to one of its cells),
    the store serving the request [Insert] may make: [Insert] returns, and
    [Erase] at the iterator it returned returns too and leaves the original
    logical sequence and size.  The capacity is restored when the vector
    had room, and is not when it was full. *)
Theorem Insert_Erase_roundtrip v pos (value : Arg T) :
  valid v -> begin_ v <= pos <= end_ v ->
  is_Some (arg_value v value) ->
  (GetSize v < GetCapacity v \/
   is_Some (ArrayPtr_new (Z.max (GetCapacity v * 2) 1))) ->
  exists it v1 it' v2,
    Insert v pos value = Done it v1 /\ Erase v1 it = Done it' v2 /\
    elements v2 = elements v /\ GetSize v2 = GetSize v /\
    (GetSize v < GetCapacity v -> GetCapacity v2 = GetCapacity v) /\
    (GetSize v = GetCapacity v -> GetCapacity v2 <> GetCapacity v).
Proof.
  unfold GetSize, GetCapacity, begin_, end_. intros Hv Hpos Hread Halloc.
  replace (capacity_ v * 2) with (2 * capacity_ v) in * by lia.
  destruct (Insert_reads v pos value Hv Hpos Hread) as [x ->].
  destruct (Insert_done v pos x Hv Hpos Halloc) as (v1 & Hi & Hv1 & Hs1 & Hc1 & He1).
  destruct (Erase_done v1 pos Hv1) as (v2 & He & Hv2 & Hs2 & Hc2 & He2); [lia|].
  exists pos, v1, pos, v2. pose proof Hv as (Hs & Hc & Hl).
  split_and!; try done; try lia.
  - rewrite He2, He1. apply erase_at_insert_at.
    unfold elements. rewrite length_take_le; lia.
  - intros Hlt. rewrite Hc2, Hc1.
    by destruct (Z.ltb_spec (size_ v) (capacity_ v)); [|lia].
  - intros Heq. rewrite Hc2, Hc1.
    destruct (Z.ltb_spec (size_ v) (capacity_ v)); lia.
Qed.

End InsertErase.

Lemma Insert_Erase_roundtrip_witness :
  valid v123 /\ begin_ v123 <= 1 <= end_ v123 /\
  is_Some (arg_value v123 (Own 2)) /\
  exists it v1 it' v2,
    Insert (FS:=ample_store) v123 1 (Own 2) = Done it v1 /\
    Erase v1 it = Done it' v2 /\
    elements v2 = elements v123 /\ GetSize v2 = GetSize v123 /\
    (GetSize v123 < GetCapacity v123 -> GetCapacity v2 = GetCapacity v123) /\
    (GetSize v123 = GetCapacity v123 -> GetCapacity v2 <> GetCapacity v123).
Proof.
  assert (Hv : valid v123) by (unfold valid; vm_compute; intuition discriminate).
  assert (Hp : begin_ v123 <= 1 <= end_ v123) by (vm_compute; intuition discriminate).
  assert (Hr : is_Some (arg_value v123 (Own 2))) by (vm_compute; eauto).
  split; [exact Hv|]. split; [exact Hp|]. split; [exact Hr|].
  apply (Insert_Erase_roundtrip (FS:=ample_store) v123 1 (Own 2) Hv Hp Hr).
  right. vm_compute. eauto.
Defined.

Lemma PushBack_spec_witness :
  (exists v', PushBack (FS:=ample_store) v123 (Outside 4) = Done () v' /\
     GetSize v' = 4 /\ elements v' = [1; 2; 3; 4] /\ GetCapacity v' = 6) /\
  (exists v', PushBack (FS:=ample_store) v123_roomy (Own 0) = Done () v' /\
     GetSize v' = 4 /\ elements v' = [1; 2; 3; 1] /\ GetCapacity v' = 6) /\
  (exists v3, push_all (FS:=ample_store) ctor_default [10; 20; 30] = Done () v3 /\
     GetSize v3 = 3 /\ GetCapacity v3 >= GetSize v3 /\ elements v3 = [10; 20; 30]).
Proof.
  split; [|split].
  - destruct (proj1 (PushBack_spec (FS:=ample_store)) v123 (Outside 4) 4)
      as (v' & Hp & Hs & He & Hc & _).
    + unfold valid; vm_compute; intuition discriminate.
    + reflexivity.
    + right. split; [reflexivity|]. vm_compute. eauto.
    + exists v'. split_and!; try done.
      destruct Hc as (r & _ & _ & _ & Hc); [done|]. exact Hc.
  - destruct (proj1 (PushBack_spec (FS:=ample_store)) v123_roomy (Own 0) 1)
      as (v' & Hp & Hs & He & _ & Hc).
    + unfold valid; vm_compute; intuition discriminate.
    + reflexivity.
    + left. vm_compute. reflexivity.
    + exists v'. split_and!; try done. by apply Hc.
  - destruct (proj2 (PushBack_spec (FS:=ample_store)) [10; 20; 30])
      with (k := 3%nat) as (v3 & Hp & Hs & Hc & He).
    + vm_compute. discriminate.
    + done.
    + simpl. lia.
    + exists v3. split_and!; done.
Defined.

Lemma Resize_spec_witness :
  valid v123 /\ 0 <= 7 /\
  (7 <= GetCapacity v123 \/
   is_Some (ArrayPtr_new (FS:=ample_store) (Z.max 7 (GetCapacity v123 * 2)))) /\
  exists v', Resize (FS:=ample_store) v123 7 = Done () v' /\
    GetSize v' = 7 /\ GetCapacity v' >= 7 /\
    (forall i, 0 <= i < Z.min (GetSize v123) 7 -> deref v' i = deref v123 i) /\
    (forall i, GetSize v123 <= i < 7 -> deref v' i = Some Type_ctor) /\
    (7 > GetCapacity v123 -> GetCapacity v' = Z.max 7 (GetCapacity v123 * 2)).
Proof.
  assert (Hv : valid v123) by (unfold valid; vm_compute; intuition discriminate).
  assert (Ha : 7 <= GetCapacity v123 \/
   is_Some (ArrayPtr_new (FS:=ample_store) (Z.max 7 (GetCapacity v123 * 2))))
    by (right; vm_compute; eauto).
  split_and!; [exact Hv|lia|exact Ha|].
  apply (Resize_spec (FS:=ample_store) v123 7 Hv ltac:(lia) Ha).
Defined.

Section Access.

Context {T : Type}.
Implicit Types (v : SimpleVector T).

(** C8.  [At(index)] throws [out_of_range] exactly when
    [index >= size], and the vector is then what it was; when
    [index < size] it returns the reference that [operator[]] returns, and
    the vector is untouched.  The mutable and the [const] overload
    agree. *)
Theorem At_spec v i :
  (At v i = Thrown out_of_range v <-> i >= GetSize v) /\
  (At_const v i = Thrown out_of_range v <-> i >= GetSize v) /\
  (i < GetSize v ->
   exists r, At v i = Done r v /\ index v i = Done r v /\
             At_const v i = Done r v /\ index_const v i = Done r v /\
             deref v r = deref v i).
Proof.
  unfold At, At_const, index, index_const, GetSize. rewrite Z.geb_leb.
  destruct (Z.leb_spec (size_ v) i) as [Hge|Hlt].
  - split_and!; try (split; [lia|done]). lia.
  - split_and!; try (split; [done|lia]).
    intros _. exists i. destruct (Z.ltb_spec i (size_ v)); [done|lia].
Qed.

(** C10.  [swap] exchanges the complete states of the two vectors (block,
    size and capacity, hence logical sequence), it cannot fail, and a
    second [swap] restores both.  Its embedding takes no free store: there
    is nothing it could allocate from. *)
Theorem swap_spec (a b : SimpleVector T) :
  swap a b = (b, a) /\
  items_ (swap a b).1 = items_ b /\ items_ (swap a b).2 = items_ a /\
  elements (swap a b).1 = elements b /\ elements (swap a b).2 = elements a /\
  GetSize (swap a b).1 = GetSize b /\ GetSize (swap a b).2 = GetSize a /\
  GetCapacity (swap a b).1 = GetCapacity b /\
  GetCapacity (swap a b).2 = GetCapacity a /\
  swap (swap a b).1 (swap a b).2 = (a, b).
Proof. by destruct a, b. Qed.

(** The move constructor copies the size into both counters. *)
Lemma ctor_move_counters v :
  ctor_move v = (MkVec (items_ v) (size_ v) (size_ v), MkVec [] 0 0).
Proof. done. Qed.

End Access.

Section Reservation.

Context {T : Type} {MT : Movable T} {FS : FreeStore T}.
Implicit Types (v : SimpleVector T).

(** C6.  Constructing from [Reserve(c)], the store serving the request:
    the vector has size 0 and capacity [c], and its logical sequence is
    empty. *)
Theorem ctor_reserve_spec c :
  0 <= c -> is_Some (ArrayPtr_new c) ->
  exists v, ctor_reserve c = Done v () /\
    GetSize v = 0 /\ GetCapacity v = c /\ IsEmpty v = true /\ elements v = [].
Proof.
  intros Hc [items Hi]. unfold ctor_reserve, Reserve, ctor_default. simpl.
  destruct (Z.gtb_spec c 0) as [Hpos|Hzero].
  - rewrite Hi. simpl. eexists. split; [done|]. by split_and!.
  - assert (c = 0) as -> by lia. eexists. split; [done|]. by split_and!.
Qed.

Lemma ctor_reserve_bad_alloc c :
  0 < c -> ArrayPtr_new c = None -> ctor_reserve c = Thrown bad_alloc ().
Proof.
  intros Hc Hi. unfold ctor_reserve, Reserve, ctor_default. simpl.
  destruct (Z.gtb_spec c 0); [|lia]. by rewrite Hi.
Qed.

(** What a refused request leaves behind. *)
Lemma Reserve_bad_alloc v n :
  n > capacity_ v -> ArrayPtr_new n = None -> Reserve v n = Thrown bad_alloc v.
Proof.
  intros Hn Hi. unfold Reserve. destruct (Z.gtb_spec n (capacity_ v)); [|lia].
  by rewrite Hi.
Qed.

Lemma Insert_bad_alloc v pos (value : Arg T) :
  begin_ v <= pos <= end_ v -> capacity_ v <= size_ v ->
  ArrayPtr_new (Z.max (SizeT.mul (capacity_ v) 2) 1) = None ->
  Insert v pos value = Thrown bad_alloc v.
Proof.
  unfold Insert, read_arg, begin_, end_. intros Hpos Hfull Hi.
  destruct (Z.leb_spec 0 pos); [|lia].
  destruct (Z.leb_spec pos (size_ v)); [|lia]. simpl.
  destruct (Z.ltb_spec (size_ v) (capacity_ v)); [lia|].
  by rewrite (ctor_sized_bad_alloc _ Hi).
Qed.

Lemma Resize_bad_alloc v n :
  n > capacity_ v ->
  ArrayPtr_new (Z.max n (SizeT.mul (capacity_ v) 2)) = None ->
  Resize v n =
    Thrown bad_alloc
      (MkVec (items_ v) (size_ v) (Z.max n (SizeT.mul (capacity_ v) 2))).
Proof.
  intros Hn Hi. unfold Resize. destruct (Z.leb_spec n (capacity_ v)); [lia|].
  by rewrite Hi.
Qed.

(** The sized constructor fills with [Type()] when moving from a
    default-constructed object leaves it default-constructed. *)
Lemma ctor_sized_default n :
  moved_from Type_ctor = Type_ctor ->
  0 <= n -> is_Some (ArrayPtr_new n) ->
  exists v, ctor_sized n = Done v () /\ size_ v = n /\ capacity_ v = n /\
    forall i, 0 <= i < n -> deref v i = Some Type_ctor.
Proof.
  intros Hmv Hn Hi.
  destruct (ctor_sized_done n Hn Hi) as (v & Hv & Hs & Hc & _ & _ & Hj).
  exists v. split_and!; try done. intros i Hi'. unfold deref, cell_get.
  destruct (Z.leb_spec 0 i); [|lia]. rewrite Hj by lia. f_equal.
  induction (Z.to_nat i) as [|k IH]; [done|]. simpl. by rewrite IH.
Qed.

(** [Reserve] on a valid vector, when the store serves the request it
    may make: the logical sequence and the size stay, the capacity becomes
    the larger of the two. *)
Lemma Reserve_done v n :
  valid v ->
  (n <= capacity_ v \/ is_Some (ArrayPtr_new n)) ->
  exists v', Reserve v n = Done () v' /\ valid v' /\
    size_ v' = size_ v /\ capacity_ v' = Z.max n (capacity_ v) /\
    elements v' = elements v.
Proof.
  intros Hv Halloc. pose proof Hv as (Hs & Hc & Hl). unfold Reserve.
  destruct (Z.gtb_spec n (capacity_ v)) as [Hgt|Hle].
  - destruct Halloc as [?|[temp Ht]]; [lia|]. rewrite Ht.
    apply ArrayPtr_new_Some in Ht as [Hlt Hmax]; [|lia].
    destruct (std_copy_move_in_block (Z.to_nat (size_ v)) (items_ v) 0 temp 0)
      as (old & t1 & -> & _ & Hl1 & Hj1 & _); [lia|lia|].
    simpl. eexists. split; [done|]. unfold valid, elements. simpl. rewrite Hl1.
    split_and!; try done; try lia.
    apply take_pointwise. intros j Hj. rewrite Hj1. case_decide; [|lia].
    f_equal. lia.
  - exists v. split_and!; try done. lia.
Qed.

(** The copy constructor, when the store serves its request: a vector of
    the same size, capacity and logical sequence. *)
Lemma ctor_copy_done other :
  valid other -> is_Some (ArrayPtr_new (capacity_ other)) ->
  exists v, ctor_copy other = Done v () /\ valid v /\
    size_ v = size_ other /\ capacity_ v = capacity_ other /\
    elements v = elements other.
Proof.
  intros (Hs & Hc & Hl) [items Hi]. unfold ctor_copy. rewrite Hi.
  apply ArrayPtr_new_Some in Hi as [Hli Hmax]; [|lia].
  destruct (std_copy_in_block (Z.to_nat (size_ other)) (items_ other) 0 items 0)
    as (b' & -> & Hl' & Hj); [lia|lia|].
  eexists. split; [done|]. unfold valid, elements. simpl. rewrite Hl'.
  split_and!; try done; try lia.
  apply take_pointwise. intros j Hlt. rewrite Hj. case_decide; [|lia].
  f_equal. lia.
Qed.

(** The constructor from an initializer list, when the store serves its
    request. *)
Lemma ctor_init_done (init : list T) :
  is_Some (ArrayPtr_new (Z.of_nat (length init))) ->
  exists v, ctor_init init = Done v () /\ valid v /\
    size_ v = Z.of_nat (length init) /\ capacity_ v = Z.of_nat (length init) /\
    elements v = init.
Proof.
  intros [items Hi]. unfold ctor_init. rewrite Hi.
  apply ArrayPtr_new_Some in Hi as [Hli Hmax]; [|lia].
  destruct (std_copy_in_block (length init) init 0 items 0)
    as (b' & -> & Hl' & Hj); [lia|lia|].
  eexists. split; [done|]. unfold valid, elements. simpl. rewrite Hl'.
  split_and!; try done; try lia.
  rewrite Nat2Z.id. rewrite <- (take_ge init (length init)) at 2 by lia.
  apply take_pointwise. intros j Hlt. rewrite Hj. case_decide; [|lia].
  f_equal. lia.
Qed.

(** The constructor filling with copies of a value, when the store serves
    its request. *)
Lemma ctor_fill_done n x :
  0 <= n -> is_Some (ArrayPtr_new n) ->
  exists v, ctor_fill n x = Done v () /\ valid v /\
    size_ v = n /\ capacity_ v = n /\
    elements v = replicate (Z.to_nat n) x.
Proof.
  intros Hn [items Hi]. unfold ctor_fill. rewrite Hi.
  apply ArrayPtr_new_Some in Hi as [Hli Hmax]; [|lia].
  destruct (std_fill_in_block (Z.to_nat n) items 0 x)
    as (b' & -> & Hl' & Hj); [lia|].
  eexists. split; [done|]. unfold valid, elements. simpl. rewrite Hl'.
  split_and!; try done; try lia.
  apply list_eq. intros j. rewrite lookup_take, Hj.
  repeat case_decide; try lia.
  - by rewrite lookup_replicate_2 by lia.
  - symmetry. apply lookup_replicate_None. lia.
Qed.

End Reservation.

Lemma ctor_reserve_spec_witness :
  0 <= 5 /\ is_Some (ArrayPtr_new (FS:=ample_store) 5) /\
  exists v, ctor_reserve (FS:=ample_store) 5 = Done v () /\
    GetSize v = 0 /\ GetCapacity v = 5 /\ IsEmpty v = true /\ elements v = [].
Proof.
  assert (Ha : is_Some (ArrayPtr_new (FS:=ample_store) 5)) by (vm_compute; eauto).
  split; [lia|]. split; [exact Ha|].
  apply (ctor_reserve_spec (FS:=ample_store) 5 ltac:(lia) Ha).
Defined.

(** C1.  Claimed: when the allocation fails inside [Reserve], [Resize],
    [PushBack] or [Insert], the error reaches the caller and size,
    capacity and logical sequence are what they were before the call.
    The code: [Resize], and [PushBack] which calls it, assign [capacity_]
    before the block is requested.  With [v{1, 2, 3}] in a store with room
    for three cells, [Resize(7)] and [PushBack(4)] throw [bad_alloc] and
    leave the capacity at 7 and 6 over a block of three cells, where a
    later [PushBack] writes outside the block; [Reserve(7)] and
    [Insert(begin(), 99)] throw [bad_alloc] too and leave the vector as it
    was. *)
Theorem Resize_bad_alloc_keeps_new_capacity :
  ctor_init (FS:=tight_store) [1; 2; 3] = Done v123 () /\
  Resize (FS:=tight_store) v123 7 = Thrown bad_alloc (MkVec [1; 2; 3] 3 7) /\
  PushBack (FS:=tight_store) v123 (Outside 4)
    = Thrown bad_alloc (MkVec [1; 2; 3] 3 6) /\
  GetCapacity (MkVec [1; 2; 3] 3 7) <> GetCapacity v123 /\
  GetCapacity (MkVec [1; 2; 3] 3 6) <> GetCapacity v123 /\
  PushBack (FS:=tight_store) (MkVec [1; 2; 3] 3 7) (Outside 4) = Undefined /\
  Reserve (FS:=tight_store) v123 7 = Thrown bad_alloc v123 /\
  Insert (FS:=tight_store) v123 0 (Outside 99) = Thrown bad_alloc v123.
Proof. split_and!; by vm_compute. Qed.

(** C4.  Claimed: [PushBack] appends exactly one element, through
    [Resize(capacity + 1)] when [size == capacity], and the new last slot
    receives the given value.  The code: [PushBack] takes the value by
    reference and reads it in its last statement, after [Resize].  With
    [v{1, 2, 3}], which is full, [v.PushBack(v[0])] has [Resize(4)] move
    the elements to a new block and free the one [v[0]] refers to, and
    line 114 then reads that freed cell: the call has no defined result
    and the value given, 1, is not what the new last slot receives.  The
    same call with an object outside the vector appends 1, as it does on
    a vector with room; [Insert(end(), v[0])] on the full vector, which
    reads the value before the old block goes, appends 1 too. *)
Theorem PushBack_own_element_reads_freed_block :
  ctor_init (FS:=ample_store) [1; 2; 3] = Done v123 () /\
  GetSize v123 = GetCapacity v123 /\
  index v123 0 = Done 0 v123 /\ deref v123 0 = Some 1 /\
  arg_value v123 (Own 0) = Some 1 /\
  Resize (FS:=ample_store) v123 (GetCapacity v123 + 1)
    = Done () (MkVec [1; 2; 3; 0; 0; 0] 4 6) /\
  Resize_frees v123 (GetCapacity v123 + 1) = true /\
  PushBack (FS:=ample_store) v123 (Own 0) = Undefined /\
  PushBack (FS:=ample_store) v123 (Outside 1)
    = Done () (MkVec [1; 2; 3; 1; 0; 0] 4 6) /\
  PushBack (FS:=ample_store) v123_roomy (Own 0)
    = Done () (MkVec [1; 2; 3; 1; 0; 0] 4 6) /\
  Insert (FS:=ample_store) v123 (end_ v123) (Own 0)
    = Done 3 (MkVec [1; 2; 3; 1; 0; 0] 4 6).
Proof. split_and!; by vm_compute. Qed.

(** C2.  Claimed: move construction gives the new vector the source's
    size and the source's capacity and leaves the source empty with
    capacity 0.  The code: the new vector gets the source's size as its
    capacity.  From a vector built with [Reserve(5)] (size 0, capacity 5)
    the new vector owns the block of five cells with capacity 0; the source
    is left as a default-constructed vector. *)
Theorem ctor_move_drops_capacity :
  exists v, ctor_reserve (FS:=ample_store) 5 = Done v () /\
    GetSize v = 0 /\ GetCapacity v = 5 /\
    GetSize (ctor_move v).1 = 0 /\ GetCapacity (ctor_move v).1 = 0 /\
    GetCapacity (ctor_move v).1 <> GetCapacity v /\
    length (items_ (ctor_move v).1) = 5%nat /\
    (ctor_move v).2 = ctor_default.
Proof. eexists. split; [by vm_compute|]. by split_and!. Qed.

(** C5.  Claimed: a vector constructed with a size and no fill value has
    that size and capacity and every element equal to [Type()].  The
    code: the sized constructor moves one temporary [Type()] into every
    cell.  For [SimpleVector<X>(2)], with [X] the class of [main.cpp], the
    first cell gets [X(5)] and the second what the move left, [X(0)]. *)
Theorem ctor_sized_X_second_not_default :
  ctor_sized (FS:=store_X) 2 = Done (MkVec [MkX 5; MkX 0] 2 2) () /\
  deref (MkVec [MkX 5; MkX 0] 2 2) 1 = Some (MkX 0) /\
  MkX 0 <> Type_ctor.
Proof. split_and!; by vm_compute. Qed.

(** * The invariant [size <= capacity] *)

Section Invariant.

Context {T : Type} {MT : Movable T} {FS : FreeStore T}.
Implicit Types (v : SimpleVector T) (x : T).

Lemma SizeT_succ_below (z bound : Z) :
  0 <= z < bound -> bound < SizeT.modulus -> SizeT.add z 1 = z + 1.
Proof. intros. unfold SizeT.add. apply SizeT_wrap_small. lia. Qed.

Lemma SizeT_pred_positive (z : Z) :
  0 < z < SizeT.modulus -> SizeT.sub z 1 = z - 1.
Proof. intros. unfold SizeT.sub. apply SizeT_wrap_small. lia. Qed.

Lemma ctor_fill_move_Done n x v x' :
  0 <= n -> ctor_fill_move n x = Done (v, x') () ->
  size_ v = n /\ capacity_ v = n /\
  Z.of_nat (length (items_ v)) = n /\ n <= SizeT.PTRDIFF_MAX.
Proof.
  intros Hn. unfold ctor_fill_move.
  destruct (ArrayPtr_new n) as [items|] eqn:Hi; [|done].
  destruct (fill_move _ _ _ _) as [[b' y]|] eqn:Hf; [|done].
  intros [= <- <-]. simpl.
  apply ArrayPtr_new_Some in Hi as [Hl Hmax]; [|done].
  apply fill_move_Some in Hf as [Hl' _]. rewrite Hl'. done.
Qed.

Lemma ctor_sized_Done n v :
  0 <= n -> ctor_sized n = Done v () ->
  size_ v = n /\ capacity_ v = n /\
  Z.of_nat (length (items_ v)) = n /\ n <= SizeT.PTRDIFF_MAX.
Proof.
  intros Hn. unfold ctor_sized.
  destruct (ctor_fill_move n Type_ctor) as [[v0 x'] []| | |] eqn:Hc; try done.
  intros [= <-]. by eapply ctor_fill_move_Done.
Qed.

Lemma Resize_size_le_capacity v n v' :
  size_le_capacity v -> SizeT.is_size_t n ->
  Resize v n = Done () v' -> size_le_capacity v'.
Proof.
  unfold size_le_capacity, SizeT.is_size_t, Resize. intros Hv Hn.
  pose proof (SizeT_wrap_range (capacity_ v * 2)) as Hw.
  fold (SizeT.mul (capacity_ v) 2) in Hw.
  destruct (Z.leb_spec n (capacity_ v)).
  - destruct (Z.leb_spec n (size_ v)).
    + intros [= <-]. simpl. lia.
    + destruct (fill_default _ _ _); [|done]. intros [= <-]. simpl. lia.
  - destruct (ArrayPtr_new _); [|done].
    destruct (std_copy_move _ _ _ _ _) as [[old t1]|]; [|done].
    destruct (fill_default _ _ _); [|done]. intros [= <-]. simpl. lia.
Qed.

Lemma Reserve_size_le_capacity v n v' :
  size_le_capacity v -> SizeT.is_size_t n ->
  Reserve v n = Done () v' -> size_le_capacity v'.
Proof.
  unfold size_le_capacity, SizeT.is_size_t, Reserve. intros Hv Hn.
  destruct (Z.gtb_spec n (capacity_ v)).
  - destruct (ArrayPtr_new _); [|done].
    destruct (std_copy_move _ _ _ _ _) as [[old t1]|]; [|done].
    intros [= <-]. simpl. lia.
  - by intros [= <-].
Qed.

Lemma reset_arg_length (block : list T) (a : Arg T) x :
  length (reset_arg block a x).1 = length block.
Proof. destruct a; simpl; [done|by rewrite length_insert]. Qed.

Lemma PushBack_size_le_capacity v (item : Arg T) v' :
  size_le_capacity v -> PushBack v item = Done () v' -> size_le_capacity v'.
Proof.
  intros Hv. unfold PushBack.
  destruct (Z.eqb_spec (size_ v) (capacity_ v)) as [Heq|Hne].
  - destruct (Resize v _) as [[] v1| | |] eqn:Hr; try done.
    apply Resize_size_le_capacity in Hr; [|done|apply SizeT_wrap_range].
    destruct (read_arg _ _ _) as [x|]; [|done].
    destruct (ArrayPtr_set _ _ _); [|done]. by intros [= <-].
  - simpl. destruct (read_arg _ _ _) as [x|]; [|done].
    destruct (ArrayPtr_set _ _ _); [|done]. intros [= <-].
    unfold size_le_capacity in *. simpl.
    rewrite (SizeT_succ_below (size_ v) (capacity_ v)); lia.
Qed.

Lemma PushBack_move_size_le_capacity v (item item' : Arg T) v' :
  size_le_capacity v -> PushBack_move v item = Done item' v' ->
  size_le_capacity v'.
Proof.
  intros Hv. unfold PushBack_move.
  destruct (Z.eqb_spec (size_ v) (capacity_ v)) as [Heq|Hne].
  - destruct (Resize v _) as [[] v1| | |] eqn:Hr; try done.
    apply Resize_size_le_capacity in Hr; [|done|apply SizeT_wrap_range].
    destruct (read_arg _ _ _) as [x|]; [|done].
    destruct (reset_arg _ _ _) as [b1 a1].
    destruct (ArrayPtr_set _ _ _); [|done]. by intros [= _ <-].
  - simpl. destruct (read_arg _ _ _) as [x|]; [|done].
    destruct (reset_arg _ _ _) as [b1 a1].
    destruct (ArrayPtr_set _ _ _); [|done]. intros [= _ <-].
    unfold size_le_capacity in *. simpl.
    rewrite (SizeT_succ_below (size_ v) (capacity_ v)); lia.
Qed.

Lemma Insert_size_le_capacity v pos (value : Arg T) it v' :
  size_le_capacity v -> Insert v pos value = Done it v' -> size_le_capacity v'.
Proof.
  intros Hv. pose proof Hv as (Hs & Hc). unfold Insert, begin_, end_.
  rewrite Z.sub_0_r, !Z.add_0_l.
  destruct (Z.leb_spec 0 pos); [|done].
  destruct (Z.leb_spec pos (size_ v)); [|done]. simpl.
  destruct (Z.ltb_spec (size_ v) (capacity_ v)) as [Hroom|Hfull].
  - destruct (std_copy_backward_move_within _ _ _ _); [|done].
    destruct (read_arg _ _ _) as [x|]; [|done].
    destruct (ArrayPtr_set _ _ _); [|done]. intros [= <- <-].
    unfold size_le_capacity. simpl.
    rewrite (SizeT_succ_below (size_ v) (capacity_ v)); lia.
  - destruct (ctor_sized _) as [temp []| | |] eqn:Ht; try done.
    apply ctor_sized_Done in Ht as (_ & Htc & Htl & Hmax); [|lia].
    destruct (std_copy_move _ _ _ _ _) as [[old1 t1]|] eqn:H1; [|done].
    apply std_copy_move_Some in H1 as (_ & Hl1 & _).
    destruct (Z.ltb_spec pos (SizeT.add (size_ v) 1)); [|done].
    destruct (read_arg _ _ _) as [x|]; [|done].
    destruct (ArrayPtr_set t1 pos x) as [t2|] eqn:H2; [|done].
    apply ArrayPtr_set_Some in H2 as [Hp ->].
    destruct (std_copy_move _ _ _ _ _) as [[old2 t3]|] eqn:H3; [|done].
    apply std_copy_move_Some in H3 as (_ & Hl3 & Hn3).
    rewrite length_insert in Hl3, Hn3. simpl. intros [= <- <-].
    unfold size_le_capacity. simpl. rewrite Htc.
    pose proof SizeT_PTRDIFF_MAX_double.
    assert (size_ v + 1 <= Z.max (SizeT.mul (capacity_ v) 2) 1).
    { destruct (decide (pos = size_ v)) as [->|]; [lia|].
      specialize (Hn3 ltac:(lia)). lia. }
    rewrite (SizeT_succ_below (size_ v) SizeT.PTRDIFF_MAX); lia.
Qed.

Lemma Insert_move_size_le_capacity v pos (value : Arg T) r v' :
  size_le_capacity v -> Insert_move v pos value = Done r v' ->
  size_le_capacity v'.
Proof.
  intros Hv. pose proof Hv as (Hs & Hc). unfold Insert_move, begin_, end_.
  rewrite Z.sub_0_r, !Z.add_0_l.
  destruct (Z.leb_spec 0 pos); [|done].
  destruct (Z.leb_spec pos (size_ v)); [|done]. simpl.
  destruct (Z.ltb_spec (size_ v) (capacity_ v)) as [Hroom|Hfull].
  - destruct (std_copy_backward_move_within _ _ _ _); [|done].
    destruct (read_arg _ _ _) as [x|]; [|done].
    destruct (reset_arg _ _ _) as [b1 a1].
    destruct (ArrayPtr_set _ _ _); [|done]. intros [= <- <-].
    unfold size_le_capacity. simpl.
    rewrite (SizeT_succ_below (size_ v) (capacity_ v)); lia.
  - destruct (ctor_sized _) as [temp []| | |] eqn:Ht; try done.
    apply ctor_sized_Done in Ht as (_ & Htc & Htl & Hmax); [|lia].
    destruct (std_copy_move _ _ _ _ _) as [[old1 t1]|] eqn:H1; [|done].
    apply std_copy_move_Some in H1 as (_ & Hl1 & _).
    destruct (Z.ltb_spec pos (SizeT.add (size_ v) 1)); [|done].
    destruct (read_arg _ _ _) as [x|]; [|done].
    destruct (reset_arg _ _ _) as [b1 a1].
    destruct (ArrayPtr_set t1 pos x) as [t2|] eqn:H2; [|done].
    apply ArrayPtr_set_Some in H2 as [Hp ->].
    destruct (std_copy_move _ _ _ _ _) as [[old2 t3]|] eqn:H3; [|done].
    apply std_copy_move_Some in H3 as (_ & Hl3 & Hn3).
    rewrite length_insert in Hl3, Hn3. simpl. intros [= <- <-].
    unfold size_le_capacity. simpl. rewrite Htc.
    pose proof SizeT_PTRDIFF_MAX_double.
    assert (size_ v + 1 <= Z.max (SizeT.mul (capacity_ v) 2) 1).
    { destruct (decide (pos = size_ v)) as [->|]; [lia|].
      specialize (Hn3 ltac:(lia)). lia. }
    rewrite (SizeT_succ_below (size_ v) SizeT.PTRDIFF_MAX); lia.
Qed.

Lemma Erase_size_le_capacity v pos it v' :
  size_le_capacity v -> Erase v pos = Done it v' -> size_le_capacity v'.
Proof.
  intros (Hs & Hc). unfold Erase, begin_, end_.
  destruct (Z.leb_spec 0 pos); [|done].
  destruct (Z.ltb_spec pos (size_ v)); [|done]. simpl.
  destruct (std_copy_move_within _ _ _ _); [|done]. intros [= <- <-].
  unfold size_le_capacity. simpl. rewrite SizeT_pred_positive; lia.
Qed.

Lemma PopBack_size_le_capacity v :
  size_le_capacity v -> size_le_capacity (PopBack v).
Proof.
  intros (Hs & Hc). unfold PopBack, IsEmpty, GetSize.
  destruct (Z.eqb_spec (size_ v) 0); simpl; [done|].
  unfold size_le_capacity. simpl. rewrite SizeT_pred_positive; lia.
Qed.

Lemma ctor_copy_size_le_capacity other v :
  size_le_capacity other -> ctor_copy other = Done v () -> size_le_capacity v.
Proof.
  intros Ho. unfold ctor_copy. destruct (ArrayPtr_new _); [|done].
  destruct (std_copy _ _ _ _ _); [|done]. by intros [= <-].
Qed.

Lemma ctor_init_size_le_capacity init v :
  ctor_init init = Done v () -> size_le_capacity v.
Proof.
  unfold ctor_init. destruct (ArrayPtr_new _) eqn:Hi; [|done].
  apply ArrayPtr_new_Some in Hi as [_ Hmax]; [|lia].
  destruct (std_copy _ _ _ _ _); [|done]. intros [= <-].
  unfold size_le_capacity. simpl. pose proof SizeT_PTRDIFF_MAX_double. lia.
Qed.

(** C9.  Whenever a constructor or a public member function returns, the
    vectors it leaves have [size <= capacity], provided the vectors it was
    given had. *)
Theorem size_le_capacity_preserved (before after : list (SimpleVector T)) :
  completes before after ->
  Forall size_le_capacity before -> Forall size_le_capacity after.
Proof.
  assert (Hempty : size_le_capacity (T:=T) (MkVec [] 0 0)).
  { unfold size_le_capacity, SizeT.modulus. simpl. lia. }
  destruct 1; rewrite ?Forall_cons, ?Forall_nil; intros Hb.
  - done.
  - split; [|done]. match goal with Hr : SizeT.is_size_t _ |- _ => destruct Hr end.
    match goal with Hc : ctor_sized _ = _ |- _ =>
      apply ctor_sized_Done in Hc as (Hs & Hc & _); [|done] end.
    unfold size_le_capacity. lia.
  - split; [|done]. match goal with Hr : SizeT.is_size_t _ |- _ => destruct Hr end.
    match goal with Hc : ctor_fill _ _ = _ |- _ => unfold ctor_fill in Hc;
      destruct (ArrayPtr_new _); [|done];
      destruct (std_fill _ _ _ _); [|done]; injection Hc as <- end.
    unfold size_le_capacity. simpl. lia.
  - split; [|done]. match goal with Hr : SizeT.is_size_t _ |- _ => destruct Hr end.
    match goal with Hc : ctor_fill_move _ _ = _ |- _ =>
      apply ctor_fill_move_Done in Hc as (Hs & Hc & _); [|done] end.
    unfold size_le_capacity. lia.
  - split; [|done]. match goal with Hr : SizeT.is_size_t _ |- _ => destruct Hr end.
    match goal with Hc : ctor_reserve _ = _ |- _ => unfold ctor_reserve in Hc;
      destruct (Reserve _ _) as [[] v0| | |] eqn:Hr; try done;
      injection Hc as <- end.
    by eapply Reserve_size_le_capacity.
  - split; [|done]. by eapply ctor_init_size_le_capacity.
  - destruct Hb as [Ho _]. split_and!; try done.
    by eapply ctor_copy_size_le_capacity.
  - destruct Hb as [(Hs & Hc) _]. unfold ctor_move, ArrayPtr_move. simpl.
    split_and!; try done. unfold size_le_capacity. simpl. lia.
  - destruct Hb as (Hv & Hrhs & _).
    match goal with Hc : assign_copy _ _ _ = _ |- _ => unfold assign_copy in Hc;
      destruct same; simpl in Hc end.
    + by simplify_eq.
    + destruct (ctor_copy rhs) as [temp []| | |] eqn:Ht; try done.
      apply ctor_copy_size_le_capacity in Ht; [|done].
      destruct temp, v. simpl in *. by simplify_eq.
  - destruct Hb as (Hv & Hrhs & _). unfold assign_move, ArrayPtr_move.
    destruct same; simpl; by split_and!.
  - destruct Hb as [Hv _]. split; [|done]. by eapply Reserve_size_le_capacity.
  - destruct Hb as [Hv _]. split; [|done]. by eapply PushBack_size_le_capacity.
  - destruct Hb as [Hv _]. split; [|done].
    by eapply PushBack_move_size_le_capacity.
  - destruct Hb as [Hv _]. split; [|done]. by eapply Insert_size_le_capacity.
  - destruct Hb as [Hv _]. split; [|done].
    by eapply Insert_move_size_le_capacity.
  - destruct Hb as [Hv _]. split; [|done]. by apply PopBack_size_le_capacity.
  - destruct Hb as [Hv _]. split; [|done]. by eapply Erase_size_le_capacity.
  - destruct Hb as (Hv & Ho & _). destruct v, other. simpl. by split_and!.
  - destruct Hb as [(Hs & Hc) _]. split; [|done].
    unfold Clear, size_le_capacity. simpl. lia.
  - destruct Hb as [Hv _]. split; [|done]. by eapply Resize_size_le_capacity.
  - destruct Hb as [Hv _]. split; [|done].
    match goal with Hc : index _ _ = _ |- _ => unfold index in Hc;
      destruct (_ <? _); [|done]; by injection Hc as _ <- end.
  - destruct Hb as [Hv _]. split; [|done].
    match goal with Hc : index_const _ _ = _ |- _ => unfold index_const in Hc;
      destruct (_ <? _); [|done]; by injection Hc as _ <- end.
  - destruct Hb as [Hv _]. split; [|done].
    match goal with Hc : At _ _ = _ |- _ => unfold At in Hc;
      destruct (_ >=? _); [done|]; by injection Hc as _ <- end.
  - destruct Hb as [Hv _]. split; [|done].
    match goal with Hc : At_const _ _ = _ |- _ => unfold At_const in Hc;
      destruct (_ >=? _); [done|]; by injection Hc as _ <- end.
Qed.

End Invariant.

Lemma size_le_capacity_preserved_witness :
  completes (FS:=ample_store) [v123] [MkVec [99; 1; 2; 3; 0; 0] 4 6] /\
  Forall size_le_capacity [v123] /\
  Forall size_le_capacity [MkVec [99; 1; 2; 3; 0; 0] 4 6].
Proof.
  assert (Hr : completes (FS:=ample_store) [v123] [MkVec [99; 1; 2; 3; 0; 0] 4 6]).
  { apply (run_Insert (FS:=ample_store) v123 0 (Outside 99) 0). by vm_compute. }
  assert (Hb : Forall size_le_capacity [v123]).
  { repeat constructor; unfold SizeT.modulus; simpl; lia. }
  split; [exact Hr|]. split; [exact Hb|].
  exact (size_le_capacity_preserved (FS:=ample_store) _ _ Hr Hb).
Defined.

Lemma At_spec_witness :
  2 < GetSize v123 /\
  At v123 3 = Thrown out_of_range v123 /\
  exists r, At v123 2 = Done r v123 /\ index v123 2 = Done r v123 /\
            At_const v123 2 = Done r v123 /\ index_const v123 2 = Done r v123 /\
            deref v123 r = deref v123 2.
Proof.
  assert (Hlt : 2 < GetSize v123) by (vm_compute; reflexivity).
  assert (Hge : 3 >= GetSize v123) by (vm_compute; discriminate).
  split; [exact Hlt|]. split.
  - exact (proj2 (proj1 (At_spec v123 3)) Hge).
  - exact (proj2 (proj2 (At_spec v123 2)) Hlt).
Defined.

(** * The class invariant

    [valid], which the theorems on [Resize], [PushBack], [Insert] and
    [Erase] assume, holds of every vector a constructor builds and is kept
    by every call that returns. *)

Section ClassInvariant.

Context {T : Type} {MT : Movable T} {FS : FreeStore T}.
Implicit Types (v : SimpleVector T) (x : T).

Lemma valid_empty : valid (T:=T) (MkVec [] 0 0).
Proof. unfold valid, SizeT.PTRDIFF_MAX. simpl. lia. Qed.

Lemma Resize_valid v n v' :
  valid v -> 0 <= n -> Resize v n = Done () v' -> valid v'.
Proof.
  intros Hv Hn. pose proof Hv as (Hs & Hc & Hl). unfold Resize.
  destruct (Z.leb_spec n (capacity_ v)).
  - destruct (Z.leb_spec n (size_ v)).
    + intros [= <-]. unfold valid. simpl. lia.
    + destruct (fill_default _ _ _) as [b'|] eqn:Hf; [|done].
      apply fill_default_length in Hf. intros [= <-].
      unfold valid. simpl. rewrite Hf. lia.
  - rewrite (valid_double v Hv).
    destruct (ArrayPtr_new _) as [temp|] eqn:Hi; [|done].
    apply ArrayPtr_new_Some in Hi as [Hlt Hmax]; [|lia].
    destruct (std_copy_move _ _ _ _ _) as [[old t1]|] eqn:H1; [|done].
    apply std_copy_move_Some in H1 as (_ & Hl1 & _).
    destruct (fill_default _ _ _) as [t2|] eqn:Hf; [|done].
    apply fill_default_length in Hf. intros [= <-].
    unfold valid. simpl. rewrite Hf, Hl1. lia.
Qed.

Lemma Reserve_valid v n v' :
  valid v -> Reserve v n = Done () v' -> valid v'.
Proof.
  intros Hv. pose proof Hv as (Hs & Hc & Hl). unfold Reserve.
  destruct (Z.gtb_spec n (capacity_ v)).
  - destruct (ArrayPtr_new _) as [temp|] eqn:Hi; [|done].
    apply ArrayPtr_new_Some in Hi as [Hlt Hmax]; [|lia].
    destruct (std_copy_move _ _ _ _ _) as [[old t1]|] eqn:H1; [|done].
    apply std_copy_move_Some in H1 as (_ & Hl1 & _). intros [= <-].
    unfold valid. simpl. rewrite Hl1. lia.
  - by intros [= <-].
Qed.

Lemma PushBack_valid v (item : Arg T) v' :
  valid v -> PushBack v item = Done () v' -> valid v'.
Proof.
  intros Hv. pose proof Hv as (Hs & Hc & Hl). unfold PushBack.
  destruct (Z.eqb_spec (size_ v) (capacity_ v)) as [Heq|Hne].
  - destruct (Resize v _) as [[] v1| | |] eqn:Hr; try done.
    apply Resize_valid in Hr; [|done|apply SizeT_wrap_range].
    destruct (read_arg _ _ _) as [x|]; [|done].
    destruct (ArrayPtr_set _ _ _) as [b'|] eqn:Hb; [|done].
    apply ArrayPtr_set_Some in Hb as [_ ->]. intros [= <-].
    unfold valid in *. simpl. by rewrite length_insert.
  - simpl. destruct (read_arg _ _ _) as [x|]; [|done].
    destruct (ArrayPtr_set _ _ _) as [b'|] eqn:Hb; [|done].
    apply ArrayPtr_set_Some in Hb as [_ ->]. intros [= <-].
    unfold valid. simpl.
    rewrite length_insert, (valid_succ v (size_ v) Hv); lia.
Qed.

Lemma PushBack_move_valid v (item item' : Arg T) v' :
  valid v -> PushBack_move v item = Done item' v' -> valid v'.
Proof.
  intros Hv. pose proof Hv as (Hs & Hc & Hl). unfold PushBack_move.
  destruct (Z.eqb_spec (size_ v) (capacity_ v)) as [Heq|Hne].
  - destruct (Resize v _) as [[] v1| | |] eqn:Hr; try done.
    apply Resize_valid in Hr; [|done|apply SizeT_wrap_range].
    destruct (read_arg _ _ _) as [x|]; [|done].
    pose proof (reset_arg_length (items_ v1) item x) as Hlen.
    destruct (reset_arg _ _ _) as [b1 a1]. simpl in Hlen.
    destruct (ArrayPtr_set _ _ _) as [b'|] eqn:Hb; [|done].
    apply ArrayPtr_set_Some in Hb as [_ ->]. intros [= _ <-].
    unfold valid in *. simpl. by rewrite length_insert, Hlen.
  - simpl. destruct (read_arg _ _ _) as [x|]; [|done].
    pose proof (reset_arg_length (items_ v) item x) as Hlen.
    destruct (reset_arg _ _ _) as [b1 a1]. simpl in Hlen.
    destruct (ArrayPtr_set _ _ _) as [b'|] eqn:Hb; [|done].
    apply ArrayPtr_set_Some in Hb as [_ ->]. intros [= _ <-].
    unfold valid. simpl.
    rewrite length_insert, Hlen, (valid_succ v (size_ v) Hv); lia.
Qed.

Lemma ctor_sized_valid n v :
  0 <= n -> ctor_sized n = Done v () -> valid v.
Proof.
  intros Hn Hc. apply ctor_sized_Done in Hc as (Hs & Hc & Hl & Hmax); [|done].
  unfold valid. lia.
Qed.

Lemma Insert_valid v pos (value : Arg T) it v' :
  valid v -> Insert v pos value = Done it v' -> valid v'.
Proof.
  intros Hv. pose proof Hv as (Hs & Hc & Hl). unfold Insert, begin_, end_.
  rewrite Z.sub_0_r, !Z.add_0_l.
  destruct (Z.leb_spec 0 pos); [|done].
  destruct (Z.leb_spec pos (size_ v)); [|done]. simpl.
  rewrite (valid_succ v (size_ v) Hv) by lia.
  destruct (Z.ltb_spec (size_ v) (capacity_ v)) as [Hroom|Hfull].
  - destruct (std_copy_backward_move_within _ _ _ _) as [b1|] eqn:H1; [|done].
    apply std_copy_backward_move_within_length in H1.
    destruct (read_arg _ _ _) as [x|]; [|done].
    destruct (ArrayPtr_set _ _ _) as [b2|] eqn:H2; [|done].
    apply ArrayPtr_set_Some in H2 as [_ ->]. intros [= <- <-].
    unfold valid. simpl. rewrite length_insert, H1. lia.
  - rewrite (valid_double v Hv).
    destruct (ctor_sized _) as [temp []| | |] eqn:Ht; try done.
    apply ctor_sized_Done in Ht as (_ & Htc & Htl & Hmax); [|lia].
    destruct (std_copy_move _ _ _ _ _) as [[old1 t1]|] eqn:H1; [|done].
    apply std_copy_move_Some in H1 as (_ & Hl1 & _).
    destruct (Z.ltb_spec pos (size_ v + 1)); [|done].
    destruct (read_arg _ _ _) as [x|]; [|done].
    destruct (ArrayPtr_set t1 pos x) as [t2|] eqn:H2; [|done].
    apply ArrayPtr_set_Some in H2 as [_ ->].
    destruct (std_copy_move _ _ _ _ _) as [[old2 t3]|] eqn:H3; [|done].
    apply std_copy_move_Some in H3 as (_ & Hl3 & _).
    rewrite length_insert in Hl3. simpl. intros [= <- <-].
    unfold valid. simpl. rewrite Hl3, Hl1, Htl, Htc. lia.
Qed.

Lemma Insert_move_valid v pos (value : Arg T) r v' :
  valid v -> Insert_move v pos value = Done r v' -> valid v'.
Proof.
  intros Hv. pose proof Hv as (Hs & Hc & Hl). unfold Insert_move, begin_, end_.
  rewrite Z.sub_0_r, !Z.add_0_l.
  destruct (Z.leb_spec 0 pos); [|done].
  destruct (Z.leb_spec pos (size_ v)); [|done]. simpl.
  rewrite (valid_succ v (size_ v) Hv) by lia.
  destruct (Z.ltb_spec (size_ v) (capacity_ v)) as [Hroom|Hfull].
  - destruct (std_copy_backward_move_within _ _ _ _) as [b1|] eqn:H1; [|done].
    apply std_copy_backward_move_within_length in H1.
    destruct (read_arg _ _ _) as [x|]; [|done].
    pose proof (reset_arg_length b1 value x) as Hlen.
    destruct (reset_arg _ _ _) as [b1' a1]. simpl in Hlen.
    destruct (ArrayPtr_set _ _ _) as [b2|] eqn:H2; [|done].
    apply ArrayPtr_set_Some in H2 as [_ ->]. intros [= <- <-].
    unfold valid. simpl. rewrite length_insert, Hlen, H1. lia.
  - rewrite (valid_double v Hv).
    destruct (ctor_sized _) as [temp []| | |] eqn:Ht; try done.
    apply ctor_sized_Done in Ht as (_ & Htc & Htl & Hmax); [|lia].
    destruct (std_copy_move _ _ _ _ _) as [[old1 t1]|] eqn:H1; [|done].
    apply std_copy_move_Some in H1 as (_ & Hl1 & _).
    destruct (Z.ltb_spec pos (size_ v + 1)); [|done].
    destruct (read_arg _ _ _) as [x|]; [|done].
    destruct (reset_arg _ _ _) as [old1' a1].
    destruct (ArrayPtr_set t1 pos x) as [t2|] eqn:H2; [|done].
    apply ArrayPtr_set_Some in H2 as [_ ->].
    destruct (std_copy_move _ _ _ _ _) as [[old2 t3]|] eqn:H3; [|done].
    apply std_copy_move_Some in H3 as (_ & Hl3 & _).
    rewrite length_insert in Hl3. simpl. intros [= <- <-].
    unfold valid. simpl. rewrite Hl3, Hl1, Htl, Htc. lia.
Qed.

Lemma Erase_valid v pos it v' :
  valid v -> Erase v pos = Done it v' -> valid v'.
Proof.
  intros (Hs & Hc & Hl). unfold Erase, begin_, end_.
  destruct (Z.leb_spec 0 pos); [|done].
  destruct (Z.ltb_spec pos (size_ v)); [|done]. simpl.
  destruct (std_copy_move_within _ _ _ _) as [b'|] eqn:H1; [|done].
  apply std_copy_move_within_length in H1. intros [= <- <-].
  pose proof SizeT_PTRDIFF_MAX_double.
  unfold valid. simpl. rewrite H1, SizeT_pred_positive; lia.
Qed.

Lemma PopBack_valid v : valid v -> valid (PopBack v).
Proof.
  intros (Hs & Hc & Hl). unfold PopBack, IsEmpty, GetSize.
  destruct (Z.eqb_spec (size_ v) 0); simpl; [done|].
  pose proof SizeT_PTRDIFF_MAX_double.
  unfold valid. simpl. rewrite SizeT_pred_positive; lia.
Qed.

Lemma ctor_copy_valid other v :
  valid other -> ctor_copy other = Done v () -> valid v.
Proof.
  intros (Hs & Hc & Hl). unfold ctor_copy.
  destruct (ArrayPtr_new _) as [items|] eqn:Hi; [|done].
  apply ArrayPtr_new_Some in Hi as [Hli Hmax]; [|lia].
  destruct (std_copy _ _ _ _ _) as [b'|] eqn:H1; [|done].
  apply std_copy_length in H1. intros [= <-].
  unfold valid. simpl. rewrite H1. lia.
Qed.

Lemma ctor_init_valid (init : list T) v :
  ctor_init init = Done v () -> valid v.
Proof.
  unfold ctor_init. destruct (ArrayPtr_new _) as [items|] eqn:Hi; [|done].
  apply ArrayPtr_new_Some in Hi as [Hli Hmax]; [|lia].
  destruct (std_copy _ _ _ _ _) as [b'|] eqn:H1; [|done].
  apply std_copy_length in H1. intros [= <-].
  unfold valid. simpl. rewrite H1. lia.
Qed.

Lemma ctor_fill_valid n x v :
  0 <= n -> ctor_fill n x = Done v () -> valid v.
Proof.
  intros Hn. unfold ctor_fill.
  destruct (ArrayPtr_new _) as [items|] eqn:Hi; [|done].
  apply ArrayPtr_new_Some in Hi as [Hli Hmax]; [|lia].
  destruct (std_fill _ _ _ _) as [b'|] eqn:H1; [|done].
  apply std_fill_length in H1. intros [= <-].
  unfold valid. simpl. rewrite H1. lia.
Qed.

(** Every call that returns leaves valid vectors, given valid ones. *)
Theorem valid_preserved (before after : list (SimpleVector T)) :
  completes before after -> Forall valid before -> Forall valid after.
Proof.
  pose proof valid_empty as Hempty.
  destruct 1; rewrite ?Forall_cons, ?Forall_nil; intros Hb.
  - done.
  - split; [|done]. eapply ctor_sized_valid; [|done].
    match goal with Hr : SizeT.is_size_t _ |- _ => apply Hr end.
  - split; [|done]. eapply ctor_fill_valid; [|done].
    match goal with Hr : SizeT.is_size_t _ |- _ => apply Hr end.
  - split; [|done].
    match goal with Hr : SizeT.is_size_t _ |- _ => destruct Hr end.
    match goal with Hc : ctor_fill_move _ _ = _ |- _ =>
      apply ctor_fill_move_Done in Hc as (Hs & Hc & Hl & Hmax); [|done] end.
    unfold valid. lia.
  - split; [|done].
    match goal with Hc : ctor_reserve _ = _ |- _ => unfold ctor_reserve in Hc;
      destruct (Reserve _ _) as [[] v0| | |] eqn:Hr; try done;
      injection Hc as <- end.
    by eapply Reserve_valid.
  - split; [|done]. by eapply ctor_init_valid.
  - destruct Hb as [Ho _]. split_and!; try done. by eapply ctor_copy_valid.
  - destruct Hb as [(Hs & Hc & Hl) _]. unfold ctor_move, ArrayPtr_move. simpl.
    split_and!; try done. unfold valid. simpl. lia.
  - destruct Hb as (Hv & Hrhs & _).
    match goal with Hc : assign_copy _ _ _ = _ |- _ => unfold assign_copy in Hc;
      destruct same; simpl in Hc end.
    + by simplify_eq.
    + destruct (ctor_copy rhs) as [temp []| | |] eqn:Ht; try done.
      apply ctor_copy_valid in Ht; [|done].
      destruct temp, v. simpl in *. by simplify_eq.
  - destruct Hb as (Hv & Hrhs & _). unfold assign_move, ArrayPtr_move.
    destruct same; simpl; [by split_and!|].
    destruct rhs. by split_and!.
  - destruct Hb as [Hv _]. split; [|done]. by eapply Reserve_valid.
  - destruct Hb as [Hv _]. split; [|done]. by eapply PushBack_valid.
  - destruct Hb as [Hv _]. split; [|done].
    by eapply PushBack_move_valid.
  - destruct Hb as [Hv _]. split; [|done]. by eapply Insert_valid.
  - destruct Hb as [Hv _]. split; [|done].
    by eapply Insert_move_valid.
  - destruct Hb as [Hv _]. split; [|done]. by apply PopBack_valid.
  - destruct Hb as [Hv _]. split; [|done]. by eapply Erase_valid.
  - destruct Hb as (Hv & Ho & _). destruct v, other. simpl. by split_and!.
  - destruct Hb as [(Hs & Hc & Hl) _]. split; [|done].
    unfold Clear, valid. simpl. lia.
  - destruct Hb as [Hv _]. split; [|done]. eapply Resize_valid; [done| |done].
    match goal with Hr : SizeT.is_size_t _ |- _ => apply Hr end.
  - destruct Hb as [Hv _]. split; [|done].
    match goal with Hc : index _ _ = _ |- _ => unfold index in Hc;
      destruct (_ <? _); [|done]; by injection Hc as _ <- end.
  - destruct Hb as [Hv _]. split; [|done].
    match goal with Hc : index_const _ _ = _ |- _ => unfold index_const in Hc;
      destruct (_ <? _); [|done]; by injection Hc as _ <- end.
  - destruct Hb as [Hv _]. split; [|done].
    match goal with Hc : At _ _ = _ |- _ => unfold At in Hc;
      destruct (_ >=? _); [done|]; by injection Hc as _ <- end.
  - destruct Hb as [Hv _]. split; [|done].
    match goal with Hc : At_const _ _ = _ |- _ => unfold At_const in Hc;
      destruct (_ >=? _); [done|]; by injection Hc as _ <- end.
Qed.

End ClassInvariant.

(** * The scenario of the tests

    [{1, 2, 3}]; [Insert(begin(), 99)]; [Insert(end(), 100)];
    [Erase(begin())]. *)
Example insert_insert_erase :
  exists a b c,
    Insert (FS:=ample_store) v123 (begin_ v123) (Outside 99) = Done 0 a /\
    elements a = [99; 1; 2; 3] /\ GetSize a = 4 /\
    Insert (FS:=ample_store) a (end_ a) (Outside 100) = Done 4 b /\
    elements b = [99; 1; 2; 3; 100] /\ GetSize b = 5 /\
    Erase b (begin_ b) = Done 0 c /\
    elements c = [1; 2; 3; 100] /\ GetSize c = 4.
Proof. do 3 eexists. repeat (split; [by vm_compute|]). by vm_compute. Qed.

(** [TestReserveMethod]: [Reserve(5)], [Reserve(1)], ten [PushBack]s,
    [Reserve(100)]. *)
Example reserve_push_reserve :
  exists a b c d,
    Reserve (FS:=ample_store) ctor_default 5 = Done () a /\
    GetCapacity a = 5 /\ IsEmpty a = true /\
    Reserve (FS:=ample_store) a 1 = Done () b /\ GetCapacity b = 5 /\
    push_all (FS:=ample_store) b [0; 1; 2; 3; 4; 5; 6; 7; 8; 9] = Done () c /\
    GetSize c = 10 /\
    Reserve (FS:=ample_store) c 100 = Done () d /\
    GetSize d = 10 /\ GetCapacity d = 100 /\
    elements d = [0; 1; 2; 3; 4; 5; 6; 7; 8; 9].
Proof. do 4 eexists. repeat (split; [by vm_compute|]). by vm_compute. Qed.

(** [TestNoncopiableErase]: three [X] pushed, the first erased. *)
Example noncopiable_erase :
  exists a b,
    push_all (FS:=store_X) ctor_default [MkX 0; MkX 1; MkX 2] = Done () a /\
    Erase a (begin_ a) = Done 0 b /\
    deref b 0 = Some (MkX 1) /\ elements b = [MkX 1; MkX 2].
Proof. do 2 eexists. repeat (split; [by vm_compute|]). by vm_compute. Qed.

(** [v.PushBack(std::move(v[0]))] on a vector of [X] with room: the
    element moves to the end and leaves its cell moved from. *)
Example PushBack_move_own_element :
  PushBack_move (FS:=store_X) (MkVec [MkX 7; MkX 8; MkX 5; MkX 5] 2 4) (Own 0)
  = Done (Own 0) (MkVec [MkX 0; MkX 8; MkX 7; MkX 5] 3 4).
Proof. by vm_compute. Qed.

(** * More on capacity: [Reserve], runs of [PushBack], [PopBack], [Clear] *)

Section Capacity.

Context {T : Type} {MT : Movable T} {FS : FreeStore T}.
Implicit Types (v : SimpleVector T) (x : T).

(** [Reserve] returns a vector with the same size and logical sequence
    and with the larger of the two capacities, so that the capacity never
    goes down; asked for no more than the capacity it leaves the vector
    untouched and requests nothing. *)
Theorem Reserve_spec v c :
  valid v ->
  (c <= GetCapacity v \/ is_Some (ArrayPtr_new c)) ->
  exists v', Reserve v c = Done () v' /\
    GetSize v' = GetSize v /\ elements v' = elements v /\
    GetCapacity v' = Z.max c (GetCapacity v) /\
    (c <= GetCapacity v -> v' = v).
Proof.
  unfold GetSize, GetCapacity. intros Hv Halloc.
  destruct (Reserve_done v c Hv Halloc) as (v' & Hr & _ & Hs & Hc & He).
  exists v'. split_and!; try done.
  intros Hle. unfold Reserve in Hr.
  destruct (Z.gtb_spec c (capacity_ v)); [lia|]. by injection Hr.
Qed.

(** [Reserve] throws exactly when it has to grow and the store refuses,
    and then the vector is what it was. *)
Theorem Reserve_throws v c :
  valid v ->
  (Reserve v c = Thrown bad_alloc v <->
   c > GetCapacity v /\ ArrayPtr_new c = None) /\
  (forall e v', Reserve v c = Thrown e v' -> e = bad_alloc /\ v' = v).
Proof.
  unfold GetCapacity. intros Hv. split; [split|].
  - intros Hr. destruct (decide (c <= capacity_ v)) as [Hle|Hgt].
    + destruct (Reserve_done v c Hv (or_introl Hle)) as (v' & Hd & _). congruence.
    + destruct (ArrayPtr_new c) as [b|] eqn:Hi; [|split; [lia|done]].
      destruct (Reserve_done v c Hv) as (v' & Hd & _); [right; by rewrite Hi|].
      congruence.
  - intros [Hgt Hi]. by apply Reserve_bad_alloc.
  - intros e v'. unfold Reserve. destruct (_ >? _); [|done].
    destruct (ArrayPtr_new c); [|by intros [= <- <-]].
    by destruct (std_copy_move _ _ _ _ _) as [[??]|].
Qed.

(** With room left, [PushBack] writes the cell at offset [size] and adds
    one to the size; the store is not consulted. *)
Lemma PushBack_room v (item : Arg T) x :
  valid v -> size_ v < capacity_ v -> arg_value v item = Some x ->
  PushBack v item =
    Done () (MkVec (<[Z.to_nat (size_ v):=x]> (items_ v)) (size_ v + 1) (capacity_ v)).
Proof.
  intros Hv Hlt Hx. pose proof Hv as (Hs & Hc & Hl).
  rewrite (PushBack_reads_room v item x) by (lia || done).
  unfold PushBack, read_arg.
  destruct (Z.eqb_spec (size_ v) (capacity_ v)); [lia|].
  rewrite (valid_succ v (size_ v) Hv) by lia. simpl.
  by rewrite ArrayPtr_set_in_block by lia.
Qed.

Lemma push_all_room xs : forall v,
  valid v -> size_ v + Z.of_nat (length xs) <= capacity_ v ->
  exists v', push_all v xs = Done () v' /\ valid v' /\
    size_ v' = size_ v + Z.of_nat (length xs) /\
    capacity_ v' = capacity_ v /\
    length (items_ v') = length (items_ v) /\
    elements v' = elements v ++ xs.
Proof.
  induction xs as [|x xs IH]; intros v Hv Hroom; simpl.
  - exists v. split_and!; try done; try lia. by rewrite app_nil_r.
  - simpl in Hroom. pose proof Hv as (Hs & Hc & Hl).
    destruct (PushBack_done v x Hv) as (v1 & Hp & Hv1 & Hs1 & Hc1 & He1);
      [left; lia|].
    rewrite Hp. pose proof Hp as Hp'. rewrite (PushBack_room v (Outside x) x) in Hp' by (done || lia).
    injection Hp' as Hv1eq.
    destruct (Z.eqb_spec (size_ v) (capacity_ v)); [lia|].
    destruct (IH v1 Hv1) as (v' & -> & Hv' & Hs' & Hc' & Hl' & He'); [lia|].
    exists v'. split_and!; try done; try lia.
    + rewrite Hl', <- Hv1eq. simpl. by rewrite length_insert.
    + by rewrite He', He1, <- app_assoc.
Qed.

(** A run of [PushBack] calls that fits in the capacity returns whatever
    the store would answer: the elements are appended in order, and
    capacity and block stay. *)
Theorem push_all_within_capacity v xs :
  valid v -> GetSize v + Z.of_nat (length xs) <= GetCapacity v ->
  exists v', push_all v xs = Done () v' /\
    GetSize v' = GetSize v + Z.of_nat (length xs) /\
    GetCapacity v' = GetCapacity v /\
    length (items_ v') = length (items_ v) /\
    elements v' = elements v ++ xs.
Proof.
  intros Hv Hroom.
  destruct (push_all_room xs v Hv Hroom) as (v' & Hp & _ & Hrest).
  by exists v'.
Qed.

(** [Clear] keeps the block: refilling a cleared vector with up to
    [capacity] elements requests nothing and gives exactly those
    elements. *)
Theorem Clear_then_push_all v xs :
  valid v -> Z.of_nat (length xs) <= GetCapacity v ->
  GetSize (Clear v) = 0 /\ GetCapacity (Clear v) = GetCapacity v /\
  exists v', push_all (Clear v) xs = Done () v' /\
    elements v' = xs /\ GetSize v' = Z.of_nat (length xs) /\
    GetCapacity v' = GetCapacity v.
Proof.
  unfold GetSize, GetCapacity. intros (Hs & Hc & Hl) Hroom.
  split; [done|]. split; [done|].
  destruct (push_all_room xs (Clear v)) as (v' & Hp & _ & Hs' & Hc' & _ & He').
  - unfold valid, Clear. simpl. lia.
  - simpl. lia.
  - exists v'. split_and!; try done.
Qed.

(** [PopBack] drops the last element and keeps the capacity; on an empty
    vector it does nothing. *)
Theorem PopBack_spec v :
  valid v ->
  elements (PopBack v) = take (length (elements v) - 1) (elements v) /\
  GetCapacity (PopBack v) = GetCapacity v /\
  GetSize (PopBack v) = Z.max 0 (GetSize v - 1) /\
  (IsEmpty v = true -> PopBack v = v).
Proof.
  intros (Hs & Hc & Hl). unfold PopBack, IsEmpty, GetSize, GetCapacity, elements.
  pose proof SizeT_PTRDIFF_MAX_double.
  destruct (Z.eqb_spec (size_ v) 0) as [Hz|Hnz]; simpl.
  - rewrite Hz. simpl. by split_and!.
  - rewrite SizeT_pred_positive by lia. split_and!; try done; try lia.
    rewrite length_take_le by lia. rewrite take_take. f_equal. lia.
Qed.

(** [PopBack] undoes [PushBack] as far as size and logical sequence
    go, when the vector has room or the argument is an object outside
    the vector. *)
Theorem PushBack_PopBack v (item : Arg T) x :
  valid v -> arg_value v item = Some x ->
  (GetSize v < GetCapacity v \/
   (item = Outside x /\
    is_Some (ArrayPtr_new (Z.max (GetCapacity v + 1) (GetCapacity v * 2))))) ->
  exists v', PushBack v item = Done () v' /\
    elements (PopBack v') = elements v /\ GetSize (PopBack v') = GetSize v.
Proof.
  unfold GetSize, GetCapacity. intros Hv Hx Hside.
  replace (capacity_ v * 2) with (2 * capacity_ v) in * by lia.
  destruct (PushBack_done_arg v item x Hv Hx Hside)
    as (v' & Hp & Hv' & Hs' & _ & He').
  exists v'. split; [done|]. pose proof Hv as (Hs & Hc & Hl).
  pose proof Hv' as (Hs1 & Hc1 & Hl1). pose proof SizeT_PTRDIFF_MAX_double.
  unfold PopBack, IsEmpty, GetSize.
  destruct (Z.eqb_spec (size_ v') 0); [lia|]. simpl.
  rewrite SizeT_pred_positive by lia. split; [|lia].
  unfold elements in *. simpl.
  replace (Z.to_nat (size_ v' - 1)) with (Z.to_nat (size_ v)) by lia.
  assert (Ht : take (Z.to_nat (size_ v)) (take (Z.to_nat (size_ v')) (items_ v'))
               = take (Z.to_nat (size_ v)) (items_ v')).
  { rewrite take_take. f_equal. lia. }
  rewrite <- Ht, He'. rewrite take_app_length'; [done|].
  rewrite length_take_le; lia.
Qed.

End Capacity.

(** * More on [Resize], [Insert] and [Erase] *)

Section Positions.

Context {T : Type} {MT : Movable T} {FS : FreeStore T}.
Implicit Types (v : SimpleVector T) (x : T).

(** The logical sequence [Resize] leaves: the old one cut to [n]
    elements, then [Type()] up to [n]. *)
Lemma Resize_elements v n :
  valid v -> 0 <= n ->
  (n <= capacity_ v \/ is_Some (ArrayPtr_new (Z.max n (2 * capacity_ v)))) ->
  exists v', Resize v n = Done () v' /\ valid v' /\ size_ v' = n /\
    capacity_ v' =
      (if n <=? capacity_ v then capacity_ v else Z.max n (2 * capacity_ v)) /\
    elements v' =
      take (Z.to_nat n) (elements v) ++ replicate (Z.to_nat (n - size_ v)) Type_ctor.
Proof.
  intros Hv Hn Halloc. pose proof Hv as (Hs & Hc & Hl).
  destruct (Resize_done v n Hv Hn Halloc) as (v' & Hr & Hv' & Hs' & Hc' & Hold & Hnew).
  exists v'. split_and!; try done. pose proof Hv' as (Hs1 & Hc1 & Hl1).
  apply list_eq. intros j. unfold elements.
  rewrite lookup_app, take_take, !lookup_take, Hs'.
  rewrite length_take_le by lia.
  repeat case_decide; try lia.
  - rewrite Hold by lia.
    destruct (items_ v !! j) eqn:E; [done|]. apply lookup_ge_None in E. lia.
  - rewrite Hnew by lia. symmetry. apply lookup_replicate_2. lia.
  - symmetry. apply lookup_replicate_None. lia.
Qed.

(** Shrinking and growing again within the capacity requests nothing and
    does not bring the dropped elements back: the offsets exposed again
    hold [Type()]. *)
Theorem Resize_shrink_then_grow v m n :
  valid v -> 0 <= m <= GetSize v -> m <= n <= GetCapacity v ->
  exists v1 v2, Resize v m = Done () v1 /\ Resize v1 n = Done () v2 /\
    GetSize v2 = n /\ GetCapacity v2 = GetCapacity v /\
    elements v2 =
      take (Z.to_nat m) (elements v) ++ replicate (Z.to_nat (n - m)) Type_ctor.
Proof.
  unfold GetSize, GetCapacity. intros Hv Hm Hn. pose proof Hv as (Hs & Hc & Hl).
  destruct (Resize_elements v m Hv) as (v1 & Hr1 & Hv1 & Hs1 & Hc1 & He1);
    [lia|left; lia|].
  destruct (Z.leb_spec m (capacity_ v)); [|lia].
  destruct (Resize_elements v1 n Hv1) as (v2 & Hr2 & Hv2 & Hs2 & Hc2 & He2);
    [lia|left; lia|].
  destruct (Z.leb_spec n (capacity_ v1)); [|lia].
  exists v1, v2. split_and!; try done; try lia.
  rewrite He2, He1, Hs1.
  replace (Z.to_nat (m - size_ v)) with 0%nat by lia. simpl. rewrite app_nil_r.
  rewrite take_take. f_equal. f_equal. lia.
Qed.

(** [Insert] of an object outside the vector puts the value at the
    position, keeps the order of all other elements and adds one to the
    size; the iterator returned is as far from [begin()] of the vector
    after the call as [pos] was from [begin()] before it, and designates
    the inserted value; a full vector gets the capacity
    [max(capacity * 2, 1)], any other keeps its capacity. *)
Theorem Insert_spec v pos x :
  valid v -> begin_ v <= pos <= end_ v ->
  (GetSize v < GetCapacity v \/
   is_Some (ArrayPtr_new (Z.max (GetCapacity v * 2) 1))) ->
  exists it v', Insert v pos (Outside x) = Done it v' /\
    it - begin_ v' = pos - begin_ v /\ deref v' it = Some x /\
    GetSize v' = GetSize v + 1 /\
    elements v' =
      take (Z.to_nat pos) (elements v) ++ x :: drop (Z.to_nat pos) (elements v) /\
    GetCapacity v' =
      (if GetSize v <? GetCapacity v then GetCapacity v
       else Z.max (GetCapacity v * 2) 1).
Proof.
  unfold GetSize, GetCapacity, begin_, end_. intros Hv Hpos Halloc.
  replace (capacity_ v * 2) with (2 * capacity_ v) in * by lia.
  destruct (Insert_done v pos x Hv Hpos Halloc) as (v' & Hi & Hv' & Hs' & Hc' & He').
  exists pos, v'. split_and!; try done.
  pose proof Hv as (Hs & Hc & Hl).
  assert (Hx : elements v' !! Z.to_nat pos = Some x).
  { rewrite He', lookup_insert_at by (unfold elements; rewrite length_take_le; lia).
    case_decide; [lia|]. by case_decide. }
  unfold elements in Hx. apply lookup_take_Some in Hx as [Hx _].
  unfold deref, cell_get. by destruct (Z.leb_spec 0 pos); [|lia].
Qed.

(** [Insert] of an element of the vector itself, [v.Insert(pos, v[r])]:
    the call returns and inserts one value at the position, but the value
    is the one the cell [r] holds when line 136 or 143 reads it.  With
    room that is [v[r]] for [r] before [pos] and the element before
    [v[r]] for [r] after [pos]; in a full vector it is [v[r]] for [r]
    from [pos] on and the moved-from [v[r]] for [r] before [pos]. *)
Theorem Insert_own_element v pos r :
  valid v -> begin_ v <= pos <= end_ v -> 0 <= r < GetSize v ->
  (GetSize v < GetCapacity v \/
   is_Some (ArrayPtr_new (Z.max (GetCapacity v * 2) 1))) ->
  exists it v' x, Insert v pos (Own r) = Done it v' /\
    deref v' it = Some x /\ GetSize v' = GetSize v + 1 /\
    elements v' =
      take (Z.to_nat pos) (elements v) ++ x :: drop (Z.to_nat pos) (elements v) /\
    (GetSize v < GetCapacity v -> r < pos -> deref v r = Some x) /\
    (GetSize v < GetCapacity v -> pos < r -> deref v (r - 1) = Some x) /\
    (GetSize v = GetCapacity v -> pos <= r -> deref v r = Some x) /\
    (GetSize v = GetCapacity v -> r < pos ->
     moved_from <$> deref v r = Some x).
Proof.
  unfold GetSize, GetCapacity, begin_, end_. intros Hv Hpos Hr Halloc.
  replace (capacity_ v * 2) with (2 * capacity_ v) in * by lia.
  pose proof Hv as (Hs & Hc & Hl).
  destruct (Insert_reads_own v pos r Hv Hpos Hr) as (x & -> & H1 & H2 & H3 & H4).
  destruct (Insert_done v pos x Hv Hpos Halloc) as (v' & Hi & Hv' & Hs' & Hc' & He').
  exists pos, v', x.
  assert (Hx : elements v' !! Z.to_nat pos = Some x).
  { rewrite He', lookup_insert_at by (unfold elements; rewrite length_take_le; lia).
    case_decide; [lia|]. by case_decide. }
  unfold elements in Hx. apply lookup_take_Some in Hx as [Hx _].
  unfold deref, cell_get.
  destruct (Z.leb_spec 0 pos); [|lia]. destruct (Z.leb_spec 0 r); [|lia].
  split_and!; try done.
  - intros Hroom Hlt. destruct (Z.leb_spec 0 (r - 1)); [|lia]. by apply H2.
  - intros Hfull Hle. apply H3; lia.
  - intros Hfull Hlt. apply H4; lia.
Qed.

(** On a valid vector and a position of [begin() .. end()], [Insert]
    throws exactly when the vector is full and the store refuses the new
    block, whatever its argument refers to; whenever it throws, the
    exception is [bad_alloc] and the vector is what it was. *)
Theorem Insert_throws v pos (value : Arg T) :
  valid v -> begin_ v <= pos <= end_ v ->
  (Insert v pos value = Thrown bad_alloc v <->
   GetSize v = GetCapacity v /\
   ArrayPtr_new (Z.max (GetCapacity v * 2) 1) = None) /\
  (forall e v', Insert v pos value = Thrown e v' -> e = bad_alloc /\ v' = v).
Proof.
  unfold GetSize, GetCapacity. intros Hv Hpos. pose proof Hv as (Hs & Hc & Hl).
  replace (capacity_ v * 2) with (2 * capacity_ v) by lia.
  split; [split|].
  - intros Hr. apply Insert_Thrown in Hr as (_ & _ & Hfull & Hnew).
    rewrite (valid_double v Hv) in Hnew.
    destruct (Z.ltb_spec (size_ v) (capacity_ v)); [done|]. split; [lia|done].
  - intros [Heq Hi]. apply Insert_bad_alloc; [done|lia|].
    by rewrite (valid_double v Hv).
  - intros e v' Hr. by apply Insert_Thrown in Hr as (-> & -> & _).
Qed.

(** [Erase] removes the element at the position, keeps the order of the
    others, takes one off the size and leaves the capacity; the iterator
    returned designates the element that followed the erased one, or is
    [end()] when there was none.  No store is involved. *)
Theorem Erase_spec v pos :
  valid v -> begin_ v <= pos < end_ v ->
  exists it v', Erase v pos = Done it v' /\
    it = pos /\ GetSize v' = GetSize v - 1 /\ GetCapacity v' = GetCapacity v /\
    elements v' =
      take (Z.to_nat pos) (elements v) ++ drop (S (Z.to_nat pos)) (elements v) /\
    (pos + 1 < end_ v -> deref v' it = deref v (pos + 1)) /\
    (pos + 1 = end_ v -> it = end_ v').
Proof.
  unfold GetSize, GetCapacity, begin_, end_. intros Hv Hpos.
  destruct (Erase_done v pos Hv Hpos) as (v' & He & Hv' & Hs' & Hc' & Hel).
  exists pos, v'. split_and!; try done; try lia.
  intros Hnext. pose proof Hv as (Hs & Hc & Hl).
  assert (Hp : (Z.to_nat pos <= length (elements v))%nat).
  { unfold elements. rewrite length_take_le; lia. }
  assert (Hx : elements v' !! Z.to_nat pos = elements v !! S (Z.to_nat pos)).
  { rewrite Hel, lookup_erase_at by done. case_decide; [lia|done]. }
  unfold elements in Hx. rewrite !lookup_take_lt in Hx by lia.
  unfold deref, cell_get. destruct (Z.leb_spec 0 pos); [|lia].
  destruct (Z.leb_spec 0 (pos + 1)); [|lia].
  rewrite Hx. f_equal. lia.
Qed.

(** [Erase] stops at its assertion exactly when the position is not one
    of [begin() .. end()); in particular on every position of an empty
    vector. *)
Theorem Erase_aborts v pos :
  valid v ->
  (Erase v pos = Aborted <-> ~ begin_ v <= pos < end_ v) /\
  (IsEmpty v = true -> Erase v pos = Aborted).
Proof.
  intros Hv. split; [split|].
  - intros Ha Hpos. destruct (Erase_done v pos Hv Hpos) as (v' & Hd & _).
    congruence.
  - unfold Erase, begin_, end_. intros Hn.
    destruct (Z.leb_spec 0 pos); destruct (Z.ltb_spec pos (size_ v));
      simpl; try done. lia.
  - unfold IsEmpty, GetSize, Erase, begin_, end_. intros Hz.
    apply Z.eqb_eq in Hz. rewrite Hz.
    destruct (Z.leb_spec 0 pos); destruct (Z.ltb_spec pos 0); simpl; try done. lia.
Qed.

(** [Insert] at [end()] and [PushBack] agree on size, capacity and
    logical sequence when the vector has room or the argument is an
    object outside the vector: the two growth rules,
    [max(capacity * 2, 1)] and [max(capacity + 1, capacity * 2)], give the
    same capacity.  The iterator [Insert] returns designates the last
    element. *)
Theorem Insert_at_end_is_PushBack v (item : Arg T) x :
  valid v -> arg_value v item = Some x ->
  (GetSize v < GetCapacity v \/
   (item = Outside x /\
    is_Some (ArrayPtr_new (Z.max (GetCapacity v * 2) 1)))) ->
  exists a it b,
    PushBack v item = Done () a /\ Insert v (end_ v) item = Done it b /\
    it + 1 = end_ b /\ deref b it = Some x /\
    elements a = elements b /\ GetSize a = GetSize b /\
    GetCapacity a = GetCapacity b.
Proof.
  unfold GetSize, GetCapacity. intros Hv Hx Hside.
  pose proof Hv as (Hs & Hc & Hl).
  replace (capacity_ v * 2) with (2 * capacity_ v) in * by lia.
  assert (Hsame : Z.max (capacity_ v + 1) (2 * capacity_ v)
                  = Z.max (2 * capacity_ v) 1) by lia.
  destruct (PushBack_done_arg v item x Hv Hx) as (a & Hp & _ & Hsa & Hca & Hea).
  { rewrite Hsame. exact Hside. }
  assert (Hout : Insert v (end_ v) item = Insert v (end_ v) (Outside x)).
  { destruct Hside as [Hlt|[-> _]]; [|done]. by apply Insert_reads_end. }
  rewrite Hout. unfold end_ at 1 2.
  destruct (Insert_done v (size_ v) x Hv ltac:(lia))
    as (b & Hi & Hvb & Hsb & Hcb & Heb).
  { destruct Hside as [Hlt|[_ Hg]]; [by left|by right]. }
  exists a, (size_ v), b. unfold end_.
  assert (Hlast : elements b !! Z.to_nat (size_ v) = Some x).
  { rewrite Heb, lookup_insert_at by (unfold elements; rewrite length_take_le; lia).
    case_decide; [lia|]. by case_decide. }
  unfold elements in Hlast. apply lookup_take_Some in Hlast as [Hlast _].
  split_and!; try done; try lia.
  - unfold deref, cell_get. by destruct (Z.leb_spec 0 (size_ v)); [|lia].
  - rewrite Hea, Heb. unfold elements.
    rewrite take_take, Nat.min_id, drop_ge; [done|].
    rewrite length_take_le; lia.
  - rewrite Hca, Hcb, Hsame.
    destruct (Z.eqb_spec (size_ v) (capacity_ v));
      destruct (Z.ltb_spec (size_ v) (capacity_ v)); lia.
Qed.

(** [Erase] at the last element and [PopBack] agree on size, capacity and
    logical sequence. *)
Theorem Erase_last_is_PopBack v :
  valid v -> 0 < GetSize v ->
  exists it v', Erase v (end_ v - 1) = Done it v' /\
    it = end_ v' /\
    elements v' = elements (PopBack v) /\ GetSize v' = GetSize (PopBack v) /\
    GetCapacity v' = GetCapacity (PopBack v).
Proof.
  unfold GetSize, GetCapacity, end_. intros Hv Hpos.
  pose proof Hv as (Hs & Hc & Hl). pose proof SizeT_PTRDIFF_MAX_double.
  destruct (Erase_done v (size_ v - 1) Hv ltac:(lia)) as (v' & He & _ & Hs' & Hc' & Hel).
  exists (size_ v - 1), v'. unfold PopBack, IsEmpty, GetSize.
  destruct (Z.eqb_spec (size_ v) 0); [lia|]. simpl.
  rewrite SizeT_pred_positive by lia. split_and!; try done; try lia.
  rewrite Hel. unfold elements. simpl.
  rewrite drop_ge by (rewrite length_take_le; lia).
  rewrite app_nil_r, take_take. f_equal. lia.
Qed.

(** The overloads taking [Type&&]: given an object outside the vector,
    [PushBack] and [Insert] end as the [const Type&] overloads do and
    leave the same vector, and the object is left moved from. *)
Theorem move_overloads_outside v pos x :
  PushBack_move v (Outside x) =
    match PushBack v (Outside x) with
    | Done _ v' => Done (Outside (moved_from x)) v'
    | Thrown e v' => Thrown e v'
    | Aborted => Aborted
    | Undefined => Undefined
    end /\
  Insert_move v pos (Outside x) =
    match Insert v pos (Outside x) with
    | Done it v' => Done (it, Outside (moved_from x)) v'
    | Thrown e v' => Thrown e v'
    | Aborted => Aborted
    | Undefined => Undefined
    end.
Proof.
  split.
  - unfold PushBack_move, PushBack, read_arg, reset_arg.
    destruct (size_ v =? capacity_ v); simpl.
    + destruct (Resize v _) as [[] v1| | |]; try done.
      by destruct (ArrayPtr_set _ _ _).
    + by destruct (ArrayPtr_set _ _ _).
  - unfold Insert_move, Insert, read_arg, reset_arg.
    destruct (_ && _); [|done]. destruct (_ <? _).
    + destruct (std_copy_backward_move_within _ _ _ _); [|done].
      by destruct (ArrayPtr_set _ _ _).
    + destruct (ctor_sized _) as [temp []| | |]; try done.
      destruct (std_copy_move _ _ _ _ _) as [[old1 t1]|]; [|done].
      destruct (_ <? _); [|done].
      destruct (ArrayPtr_set _ _ _); [|done].
      by destruct (std_copy_move _ _ _ _ _) as [[old2 t3]|].
Qed.

End Positions.

(** * Constructors and assignment *)

Section Construction.

Context {T : Type} {MT : Movable T} {FS : FreeStore T}.
Implicit Types (v : SimpleVector T) (x : T).

(** The copy constructor asks for as many cells as the source has
    capacity; served, it gives a vector with the source's size, capacity
    and logical sequence; refused, it throws [bad_alloc]. *)
Theorem ctor_copy_spec other :
  valid other ->
  (is_Some (ArrayPtr_new (GetCapacity other)) ->
   exists v, ctor_copy other = Done v () /\ valid v /\
     elements v = elements other /\ GetSize v = GetSize other /\
     GetCapacity v = GetCapacity other) /\
  (ArrayPtr_new (GetCapacity other) = None ->
   ctor_copy other = Thrown bad_alloc ()).
Proof.
  unfold GetSize, GetCapacity. intros Hv. split.
  - intros Hi. destruct (ctor_copy_done other Hv Hi) as (v & Hc & ? & ? & ? & ?).
    by exists v.
  - intros Hi. unfold ctor_copy. by rewrite Hi.
Qed.

(** Copy assignment between two distinct vectors builds the copy first:
    served, the target takes the source's size, capacity and logical
    sequence and the source is untouched; refused, [bad_alloc] leaves both
    vectors as they were.  Assigning a vector to itself changes
    nothing. *)
Theorem assign_copy_spec v rhs :
  valid rhs ->
  (is_Some (ArrayPtr_new (GetCapacity rhs)) ->
   exists v', assign_copy false v rhs = Done () (v', rhs) /\ valid v' /\
     elements v' = elements rhs /\ GetSize v' = GetSize rhs /\
     GetCapacity v' = GetCapacity rhs) /\
  (ArrayPtr_new (GetCapacity rhs) = None ->
   assign_copy false v rhs = Thrown bad_alloc (v, rhs)) /\
  assign_copy true v rhs = Done () (v, rhs).
Proof.
  unfold GetSize, GetCapacity. intros Hv. split_and!; try done.
  - intros Hi. destruct (ctor_copy_done rhs Hv Hi) as (t & Hc & Ht & He & Hs & Hcap).
    unfold assign_copy. simpl. rewrite Hc. destruct t as [ti ts tc]. simpl in *.
    eexists. split; [done|]. by split_and!.
  - intros Hi. unfold assign_copy, ctor_copy. simpl. by rewrite Hi.
Qed.

(** Moving, by constructor or by assignment from a distinct vector, hands
    the logical sequence and the size over and leaves the source as a
    default-constructed vector; both vectors are valid afterwards.  The
    assignment hands the capacity over too. *)
Theorem move_spec v rhs :
  valid rhs ->
  elements (ctor_move rhs).1 = elements rhs /\
  GetSize (ctor_move rhs).1 = GetSize rhs /\
  valid (ctor_move rhs).1 /\ (ctor_move rhs).2 = ctor_default /\
  (assign_move false v rhs).1 = rhs /\
  (assign_move false v rhs).2 = ctor_default /\
  assign_move true v rhs = (v, rhs).
Proof.
  intros (Hs & Hc & Hl). destruct rhs as [items size capacity]. simpl in *.
  unfold ctor_move, assign_move, valid. simpl. split_and!; try done; lia.
Qed.

(** The constructor from an initializer list gives a vector whose size
    and capacity are the length of the list and whose logical sequence is
    the list. *)
Theorem ctor_init_spec (init : list T) :
  is_Some (ArrayPtr_new (Z.of_nat (length init))) ->
  exists v, ctor_init init = Done v () /\ valid v /\
    GetSize v = Z.of_nat (length init) /\
    GetCapacity v = Z.of_nat (length init) /\
    elements v = init.
Proof.
  intros Hi. destruct (ctor_init_done init Hi) as (v & ? & ? & ? & ? & ?).
  by exists v.
Qed.

(** The constructor with a fill value taken by reference gives [size]
    copies of the value. *)
Theorem ctor_fill_spec n x :
  0 <= n -> is_Some (ArrayPtr_new n) ->
  exists v, ctor_fill n x = Done v () /\ valid v /\
    GetSize v = n /\ GetCapacity v = n /\
    elements v = replicate (Z.to_nat n) x.
Proof.
  intros Hn Hi. destruct (ctor_fill_done n x Hn Hi) as (v & ? & ? & ? & ? & ?).
  by exists v.
Qed.

(** The constructor with a fill value taken by rvalue reference moves
    from the one value [size] times: the element at offset [i] is the
    value after [i] moves, and the caller's object is left after [size]
    moves.  When moving leaves the value as it is, all elements equal
    it. *)
Theorem ctor_fill_move_spec n x :
  0 <= n -> is_Some (ArrayPtr_new n) ->
  exists v, ctor_fill_move n x =
              Done (v, Nat.iter (Z.to_nat n) moved_from x) () /\
    valid v /\ GetSize v = n /\ GetCapacity v = n /\
    (forall i, 0 <= i < n ->
       deref v i = Some (Nat.iter (Z.to_nat i) moved_from x)) /\
    (moved_from x = x -> elements v = replicate (Z.to_nat n) x).
Proof.
  intros Hn [items Hi]. unfold ctor_fill_move. rewrite Hi.
  apply ArrayPtr_new_Some in Hi as [Hl Hmax]; [|done].
  destruct (fill_move_in_block (Z.to_nat n) items 0 x)
    as (b' & -> & Hl' & Hj); [lia|].
  eexists. split; [done|]. unfold valid, GetSize, GetCapacity. simpl.
  rewrite Hl'. split_and!; try done; try lia.
  - intros i Hi. unfold deref, cell_get. simpl.
    destruct (Z.leb_spec 0 i); [|lia]. rewrite Hj. case_decide; [|lia].
    by rewrite Nat.sub_0_r.
  - intros Hmv. apply list_eq. intros j. unfold elements. simpl.
    rewrite lookup_take, Hj. repeat case_decide; try lia.
    + rewrite lookup_replicate_2 by lia. f_equal.
      induction (j - 0)%nat as [|k IH]; [done|]. simpl. by rewrite IH.
    + symmetry. apply lookup_replicate_None. lia.
Qed.

End Construction.

(** * Comparison operators *)

Section ComparisonFacts.

Context {T : Type} {CT : Comparable T}.
Implicit Types (a b : SimpleVector T) (l : list T).
Local Open Scope nat_scope.

Lemma std_equal_loop_spec n : ∀ (b1 : list T) i1 (b2 : list T) i2,
  i1 + n ≤ length b1 → i2 + n ≤ length b2 →
  std_equal_loop n b1 i1 b2 i2 =
    Some (seq_eqb (take n (drop i1 b1)) (take n (drop i2 b2))).
Proof.
  induction n as [|n IH]; intros b1 i1 b2 i2 H1 H2; simpl.
  - done.
  - destruct (cell_get_lt b1 i1) as [x Hx]; [lia|].
    destruct (cell_get_lt b2 i2) as [y Hy]; [lia|].
    rewrite Hx, Hy. simpl.
    rewrite (drop_S b1 x i1 Hx), (drop_S b2 y i2 Hy). simpl.
    destruct (elt_eqb x y); simpl; [|done]. apply IH; lia.
Qed.

Lemma std_lexicographical_compare_spec n1 : ∀ n2 (b1 : list T) i1 (b2 : list T) i2,
  i1 + n1 ≤ length b1 → i2 + n2 ≤ length b2 →
  std_lexicographical_compare n1 n2 b1 i1 b2 i2 =
    Some (seq_ltb (take n1 (drop i1 b1)) (take n2 (drop i2 b2))).
Proof.
  induction n1 as [|n1 IH]; intros [|n2] b1 i1 b2 i2 H1 H2; simpl.
  - done.
  - destruct (cell_get_lt b2 i2) as [y Hy]; [lia|].
    by rewrite ?take_0, (drop_S b2 y i2 Hy).
  - destruct (cell_get_lt b1 i1) as [x Hx]; [lia|].
    by rewrite ?take_0, (drop_S b1 x i1 Hx).
  - destruct (cell_get_lt b1 i1) as [x Hx]; [lia|].
    destruct (cell_get_lt b2 i2) as [y Hy]; [lia|].
    rewrite Hx, Hy. simpl.
    rewrite (drop_S b1 x i1 Hx), (drop_S b2 y i2 Hy). simpl.
    destruct (elt_ltb x y); [done|]. destruct (elt_ltb y x); [done|].
    apply IH; lia.
Qed.

Lemma seq_eqb_length l1 : ∀ l2, seq_eqb l1 l2 = true → length l1 = length l2.
Proof.
  induction l1 as [|x l1 IH]; intros [|y l2]; simpl; try done.
  intros [_ Hr]%andb_prop. f_equal. by apply IH.
Qed.

Lemma operator_eq_elements a b :
  valid a → valid b → operator_eq a b = Some (seq_eqb (elements a) (elements b)).
Proof.
  intros (Hsa & Hca & Hla) (Hsb & Hcb & Hlb).
  unfold operator_eq, std_equal, begin_, end_, elements. simpl.
  rewrite !Nat.sub_0_r.
  destruct (Nat.eqb_spec (Z.to_nat (size_ a)) (Z.to_nat (size_ b))) as [Heq|Hne].
  - rewrite std_equal_loop_spec by lia. by rewrite !drop_0, Heq.
  - destruct (seq_eqb _ _) eqn:E; [|done].
    apply seq_eqb_length in E. rewrite !length_take_le in E by lia. done.
Qed.

Lemma operator_lt_elements a b :
  valid a → valid b → operator_lt a b = Some (seq_ltb (elements a) (elements b)).
Proof.
  intros (Hsa & Hca & Hla) (Hsb & Hcb & Hlb).
  unfold operator_lt, begin_, end_, elements. simpl. rewrite !Nat.sub_0_r.
  rewrite std_lexicographical_compare_spec by lia. by rewrite !drop_0.
Qed.

Lemma seq_eqb_eq l1 :
  (∀ x y : T, elt_eqb x y = true ↔ x = y) →
  ∀ l2, seq_eqb l1 l2 = true ↔ l1 = l2.
Proof.
  intros Heq. induction l1 as [|x l1 IH]; intros [|y l2]; simpl; try done.
  rewrite andb_true_iff, Heq, IH. split; [by intros [-> ->]|by intros [= -> ->]].
Qed.

(** [operator==] compares the logical sequences and nothing else: for an
    element type whose [==] is equality, two valid vectors are equal
    exactly when their logical sequences are, whatever their capacities
    and the cells beyond their sizes; [operator!=] is its negation. *)
Theorem operator_eq_spec a b :
  (∀ x y : T, elt_eqb x y = true ↔ x = y) →
  valid a → valid b →
  ∃ r, operator_eq a b = Some r ∧ (r = true ↔ elements a = elements b) ∧
       operator_ne a b = Some (negb r).
Proof.
  intros Heq Ha Hb. exists (seq_eqb (elements a) (elements b)).
  unfold operator_ne. rewrite operator_eq_elements by done.
  split_and!; try done. by apply seq_eqb_eq.
Qed.

End ComparisonFacts.

Section ComparisonInt.

Implicit Types (a b : SimpleVector Z) (l : list Z).

Lemma seq_trichotomy_int l1 : forall l2,
  (seq_ltb l1 l2 = true /\ seq_eqb l1 l2 = false /\ seq_ltb l2 l1 = false) \/
  (seq_ltb l1 l2 = false /\ seq_eqb l1 l2 = true /\ seq_ltb l2 l1 = false) \/
  (seq_ltb l1 l2 = false /\ seq_eqb l1 l2 = false /\ seq_ltb l2 l1 = true).
Proof.
  induction l1 as [|x l1 IH]; intros [|y l2]; simpl; try tauto.
  destruct (Z.ltb_spec x y), (Z.ltb_spec y x), (Z.eqb_spec x y);
    simpl; try lia; try tauto. apply IH.
Qed.

Lemma seq_ltb_int_prefix l1 : forall l2,
  seq_ltb l1 l2 = true <->
  (exists y t, l2 = l1 ++ y :: t) \/
  (exists p x y s t, l1 = p ++ x :: s /\ l2 = p ++ y :: t /\ x < y).
Proof.
  induction l1 as [|x l1 IH]; intros [|y l2]; simpl.
  - split; [done|]. intros [(y & t & Hl)|(p & x & y & s & t & Hl & _)].
    + done.
    + by destruct p.
  - split; [|done]. intros _. left. by exists y, l2.
  - split; [done|]. intros [(y & t & Hl)|(p & x' & y & s & t & _ & Hl & _)].
    + done.
    + by destruct p.
  - destruct (Z.ltb_spec x y) as [Hlt|Hge].
    + split; [|done]. intros _. right. by exists [], x, y, l1, l2.
    + destruct (Z.ltb_spec y x) as [Hgt|Hle].
      * split; [done|].
        intros [(z & t & Hl)|(p & x' & y' & s & t & H1 & H2 & Hxy)].
        -- injection Hl as -> _. lia.
        -- destruct p as [|c p]; simpl in *; simplify_eq; lia.
      * assert (x = y) as -> by lia. rewrite IH. split.
        -- intros [(z & t & ->)|(p & x' & y' & s & t & -> & -> & Hxy)].
           ++ left. by exists z, t.
           ++ right. by exists (y :: p), x', y', s, t.
        -- intros [(z & t & Hl)|(p & x' & y' & s & t & H1 & H2 & Hxy)].
           ++ injection Hl as ->. left. by exists z, t.
           ++ destruct p as [|c p]; simpl in *; simplify_eq; [lia|].
              right. by exists p, x', y', s, t.
Qed.

(** For vectors of [int], exactly one of [a < b], [a == b] and [a > b]
    holds; [a <= b] is [a < b || a == b], [a >= b] is [a > b || a == b],
    and [a != b] is [a < b || a > b]. *)
Theorem operators_int_trichotomy a b :
  valid a -> valid b ->
  exists lt eq gt,
    operator_lt a b = Some lt /\ operator_eq a b = Some eq /\
    operator_gt a b = Some gt /\
    ((lt = true /\ eq = false /\ gt = false) \/
     (lt = false /\ eq = true /\ gt = false) \/
     (lt = false /\ eq = false /\ gt = true)) /\
    operator_le a b = Some (lt || eq) /\
    operator_ge a b = Some (gt || eq) /\
    operator_ne a b = Some (lt || gt).
Proof.
  intros Ha Hb.
  exists (seq_ltb (elements a) (elements b)), (seq_eqb (elements a) (elements b)),
         (seq_ltb (elements b) (elements a)).
  unfold operator_le, operator_ge, operator_gt, operator_ne.
  rewrite !operator_lt_elements, operator_eq_elements by done. simpl.
  pose proof (seq_trichotomy_int (elements a) (elements b)) as Ht.
  split_and!; try done;
    destruct Ht as [(-> & -> & ->)|[(-> & -> & ->)|(-> & -> & ->)]]; done.
Qed.

(** [operator<] on vectors of [int] is the lexicographic order of the
    logical sequences: [a < b] exactly when [a] is a proper prefix of [b],
    or at the first offset where they differ [a] has the smaller
    element. *)
Theorem operator_lt_int_lexicographic a b :
  valid a -> valid b ->
  (operator_lt a b = Some true <->
   (exists y t, elements b = elements a ++ y :: t) \/
   (exists p x y s t,
      elements a = p ++ x :: s /\ elements b = p ++ y :: t /\ x < y)).
Proof.
  intros Ha Hb. rewrite operator_lt_elements by done.
  rewrite <- seq_ltb_int_prefix. split; [by intros [= ->]|by intros ->].
Qed.

End ComparisonInt.

(** * [GenerateVector] *)

Section Generate.

Context {FS : FreeStore Z}.

Lemma std_iota_in_block n : forall (b : list Z) i value,
  (i + n <= length b)%nat -> value + Z.of_nat n <= INT_MAX ->
  exists b', std_iota n b i value = Some b' /\ length b' = length b /\
    forall j, b' !! j = if decide (i <= j < i + n)%nat
                        then Some (value + Z.of_nat (j - i)) else b !! j.
Proof.
  induction n as [|n IH]; intros b i value Hlen Hmax; simpl.
  - exists b. split_and!; try done. intros j. case_decide; [lia|done].
  - rewrite cell_set_lt by lia. simpl.
    destruct (Z.ltb_spec value INT_MAX); [|lia].
    destruct (IH (<[i:=value]> b) (S i) (value + 1)) as (b' & -> & Hl & Hj).
    { rewrite length_insert. lia. } { lia. }
    exists b'. rewrite Hl, length_insert. split_and!; try done.
    intros j. rewrite Hj. repeat case_decide; try lia.
    + f_equal. lia.
    + destruct (decide (j = i)) as [->|]; [|lia]. cells. f_equal. lia.
    + by cells.
Qed.

Lemma std_iota_overflow n : forall (b : list Z) i value,
  value <= INT_MAX -> INT_MAX < value + Z.of_nat n ->
  std_iota n b i value = None.
Proof.
  induction n as [|n IH]; intros b i value Hv Hmax; simpl; [lia|].
  destruct (cell_set b i value) as [b'|]; simpl; [|done].
  destruct (Z.ltb_spec value INT_MAX); [|done]. apply IH; lia.
Qed.

(** [GenerateVector(size)], the store serving the request: for a size
    below [INT_MAX] the vector has that size and capacity and holds
    [1, 2, ..., size], and returning it through the move constructor would
    give the same vector; from [INT_MAX] elements on, the last increment
    of the counter overflows. *)
Theorem GenerateVector_spec size :
  0 <= size -> is_Some (ArrayPtr_new size) ->
  (size < INT_MAX ->
   exists v, GenerateVector size = Done v () /\
     GetSize v = size /\ GetCapacity v = size /\
     elements v = seqZ 1 size /\ (ctor_move v).1 = v) /\
  (INT_MAX <= size -> GenerateVector size = Undefined).
Proof.
  intros Hn Hi. unfold GenerateVector, begin_, end_.
  destruct (ctor_sized_done size Hn Hi) as (v & -> & Hs & Hc & Hl & _ & _).
  simpl. rewrite Nat.sub_0_r, Hs. change (Z.to_nat 0) with 0%nat. split.
  - intros Hlt.
    destruct (std_iota_in_block (Z.to_nat size) (items_ v) 0 1)
      as (b' & -> & Hl' & Hj); [lia|lia|].
    eexists. split; [done|]. unfold GetSize, GetCapacity, elements, ctor_move.
    simpl. rewrite ?Hs, ?Hc. split_and!; try done.
    apply list_eq. intros j. rewrite lookup_take, Hj.
    repeat case_decide; try lia.
    + rewrite lookup_seqZ_lt by lia. f_equal. lia.
    + by rewrite lookup_seqZ_ge by lia.
  - intros Hge. rewrite std_iota_overflow; [done| |lia].
    unfold INT_MAX. lia.
Qed.

End Generate.

(** * The theorems above at concrete vectors *)

Lemma valid_v123 : valid v123.
Proof. unfold valid; vm_compute; intuition discriminate. Defined.

Lemma valid_v123_roomy : valid v123_roomy.
Proof. unfold valid; vm_compute; intuition discriminate. Defined.

Lemma Reserve_spec_witness :
  valid v123 /\ is_Some (ArrayPtr_new (FS:=ample_store) 100) /\
  exists v', Reserve (FS:=ample_store) v123 100 = Done () v' /\
    GetSize v' = GetSize v123 /\ elements v' = elements v123 /\
    GetCapacity v' = Z.max 100 (GetCapacity v123).
Proof.
  assert (Ha : is_Some (ArrayPtr_new (FS:=ample_store) 100)) by (vm_compute; eauto).
  split; [exact valid_v123|]. split; [exact Ha|].
  destruct (Reserve_spec (FS:=ample_store) v123 100 valid_v123 (or_intror Ha))
    as (v' & Hr & Hs & He & Hc & _).
  exists v'. by split_and!.
Defined.

Lemma Reserve_throws_witness :
  valid v123 /\
  (Reserve (FS:=exhausted_store) v123 7 = Thrown bad_alloc v123 <->
   7 > GetCapacity v123 /\ ArrayPtr_new (FS:=exhausted_store) 7 = None).
Proof.
  split; [exact valid_v123|].
  exact (proj1 (Reserve_throws (FS:=exhausted_store) v123 7 valid_v123)).
Defined.

Lemma push_all_within_capacity_witness :
  valid v123_roomy /\
  GetSize v123_roomy + Z.of_nat (length [4; 5; 6]) <= GetCapacity v123_roomy /\
  exists v', push_all (FS:=exhausted_store) v123_roomy [4; 5; 6] = Done () v' /\
    GetCapacity v' = GetCapacity v123_roomy /\
    elements v' = elements v123_roomy ++ [4; 5; 6].
Proof.
  assert (Hr : GetSize v123_roomy + Z.of_nat (length [4; 5; 6])
               <= GetCapacity v123_roomy) by (vm_compute; discriminate).
  split; [exact valid_v123_roomy|]. split; [exact Hr|].
  destruct (push_all_within_capacity (FS:=exhausted_store) v123_roomy [4; 5; 6]
              valid_v123_roomy Hr) as (v' & Hp & _ & Hc & _ & He).
  exists v'. by split_and!.
Defined.

Lemma Clear_then_push_all_witness :
  valid v123 /\ Z.of_nat (length [7; 8]) <= GetCapacity v123 /\
  exists v', push_all (FS:=exhausted_store) (Clear v123) [7; 8] = Done () v' /\
    elements v' = [7; 8] /\ GetCapacity v' = GetCapacity v123.
Proof.
  assert (Hr : Z.of_nat (length [7; 8]) <= GetCapacity v123)
    by (vm_compute; discriminate).
  split; [exact valid_v123|]. split; [exact Hr|].
  destruct (Clear_then_push_all (FS:=exhausted_store) v123 [7; 8] valid_v123 Hr)
    as (_ & _ & v' & Hp & He & _ & Hc).
  exists v'. by split_and!.
Defined.

Lemma PopBack_spec_witness :
  valid v123 /\
  elements (PopBack v123) = take (length (elements v123) - 1) (elements v123) /\
  GetCapacity (PopBack v123) = GetCapacity v123.
Proof.
  split; [exact valid_v123|].
  destruct (PopBack_spec v123 valid_v123) as (He & Hc & _). by split.
Defined.

Lemma PushBack_PopBack_witness :
  valid v123_roomy /\ arg_value v123_roomy (Own 0) = Some 1 /\
  exists v', PushBack (FS:=ample_store) v123_roomy (Own 0) = Done () v' /\
    elements (PopBack v') = elements v123_roomy /\
    GetSize (PopBack v') = GetSize v123_roomy.
Proof.
  assert (Hx : arg_value v123_roomy (Own 0) = Some 1) by reflexivity.
  split; [exact valid_v123_roomy|]. split; [exact Hx|].
  apply (PushBack_PopBack (FS:=ample_store) v123_roomy (Own 0) 1
           valid_v123_roomy Hx).
  left. vm_compute. reflexivity.
Defined.

Lemma Resize_shrink_then_grow_witness :
  valid v123_roomy /\ 0 <= 1 <= GetSize v123_roomy /\
  1 <= 5 <= GetCapacity v123_roomy /\
  exists v1 v2, Resize (FS:=exhausted_store) v123_roomy 1 = Done () v1 /\
    Resize (FS:=exhausted_store) v1 5 = Done () v2 /\
    GetSize v2 = 5 /\ GetCapacity v2 = GetCapacity v123_roomy /\
    elements v2 =
      take (Z.to_nat 1) (elements v123_roomy) ++ replicate (Z.to_nat (5 - 1)) Type_ctor.
Proof.
  assert (Hm : 0 <= 1 <= GetSize v123_roomy) by (vm_compute; intuition discriminate).
  assert (Hn : 1 <= 5 <= GetCapacity v123_roomy) by (vm_compute; intuition discriminate).
  split; [exact valid_v123_roomy|]. split; [exact Hm|]. split; [exact Hn|].
  exact (Resize_shrink_then_grow (FS:=exhausted_store) v123_roomy 1 5
           valid_v123_roomy Hm Hn).
Defined.

Lemma Insert_spec_witness :
  valid v123 /\ begin_ v123 <= 1 <= end_ v123 /\
  exists it v', Insert (FS:=ample_store) v123 1 (Outside 99) = Done it v' /\
    it - begin_ v' = 1 - begin_ v123 /\ deref v' it = Some 99 /\
    GetSize v' = GetSize v123 + 1.
Proof.
  assert (Hp : begin_ v123 <= 1 <= end_ v123) by (vm_compute; intuition discriminate).
  split; [exact valid_v123|]. split; [exact Hp|].
  destruct (Insert_spec (FS:=ample_store) v123 1 99 valid_v123 Hp)
    as (it & v' & Hi & Hit & Hd & Hs & _).
  - right. vm_compute. eauto.
  - exists it, v'. by split_and!.
Defined.

Lemma Insert_own_element_witness :
  valid v123_roomy /\ begin_ v123_roomy <= 0 <= end_ v123_roomy /\
  0 <= 2 < GetSize v123_roomy /\
  exists it v' x, Insert (FS:=ample_store) v123_roomy 0 (Own 2) = Done it v' /\
    deref v' it = Some x /\ elements v' = [x; 1; 2; 3] /\
    deref v123_roomy (2 - 1) = Some x.
Proof.
  assert (Hp : begin_ v123_roomy <= 0 <= end_ v123_roomy)
    by (vm_compute; intuition discriminate).
  assert (Hr : 0 <= 2 < GetSize v123_roomy) by (vm_compute; intuition discriminate).
  assert (Hroom : GetSize v123_roomy < GetCapacity v123_roomy)
    by (vm_compute; reflexivity).
  split; [exact valid_v123_roomy|]. split; [exact Hp|]. split; [exact Hr|].
  destruct (Insert_own_element (FS:=ample_store) v123_roomy 0 2
              valid_v123_roomy Hp Hr (or_introl Hroom))
    as (it & v' & x & Hi & Hd & _ & He & _ & Hafter & _).
  exists it, v', x. split; [exact Hi|]. split; [exact Hd|]. split; [exact He|].
  apply Hafter; [exact Hroom|lia].
Defined.

Lemma Insert_throws_witness :
  valid v123 /\ begin_ v123 <= 0 <= end_ v123 /\
  (Insert (FS:=exhausted_store) v123 0 (Own 2) = Thrown bad_alloc v123 <->
   GetSize v123 = GetCapacity v123 /\
   ArrayPtr_new (FS:=exhausted_store) (Z.max (GetCapacity v123 * 2) 1) = None).
Proof.
  assert (Hp : begin_ v123 <= 0 <= end_ v123) by (vm_compute; intuition discriminate).
  split; [exact valid_v123|]. split; [exact Hp|].
  exact (proj1 (Insert_throws (FS:=exhausted_store) v123 0 (Own 2) valid_v123 Hp)).
Defined.

Lemma Erase_spec_witness :
  valid v123 /\ begin_ v123 <= 1 < end_ v123 /\
  exists it v', Erase v123 1 = Done it v' /\ it = 1 /\
    GetSize v' = GetSize v123 - 1 /\ GetCapacity v' = GetCapacity v123.
Proof.
  assert (Hp : begin_ v123 <= 1 < end_ v123) by (vm_compute; intuition discriminate).
  split; [exact valid_v123|]. split; [exact Hp|].
  destruct (Erase_spec v123 1 valid_v123 Hp) as (it & v' & He & Hit & Hs & Hc & _).
  exists it, v'. by split_and!.
Defined.

Lemma Erase_aborts_witness :
  valid v123 /\ (Erase v123 3 = Aborted <-> ~ begin_ v123 <= 3 < end_ v123).
Proof.
  split; [exact valid_v123|].
  exact (proj1 (Erase_aborts v123 3 valid_v123)).
Defined.

Lemma Insert_at_end_is_PushBack_witness :
  valid v123_roomy /\ arg_value v123_roomy (Own 1) = Some 2 /\
  exists a it b, PushBack (FS:=ample_store) v123_roomy (Own 1) = Done () a /\
    Insert (FS:=ample_store) v123_roomy (end_ v123_roomy) (Own 1) = Done it b /\
    it + 1 = end_ b /\ deref b it = Some 2 /\
    elements a = elements b /\ GetCapacity a = GetCapacity b.
Proof.
  assert (Hx : arg_value v123_roomy (Own 1) = Some 2) by reflexivity.
  split; [exact valid_v123_roomy|]. split; [exact Hx|].
  destruct (Insert_at_end_is_PushBack (FS:=ample_store) v123_roomy (Own 1) 2
              valid_v123_roomy Hx)
    as (a & it & b & Hp & Hi & Hit & Hd & He & _ & Hc).
  - left. vm_compute. reflexivity.
  - exists a, it, b. by split_and!.
Defined.

Lemma Erase_last_is_PopBack_witness :
  valid v123 /\ 0 < GetSize v123 /\
  exists it v', Erase v123 (end_ v123 - 1) = Done it v' /\
    elements v' = elements (PopBack v123).
Proof.
  assert (Hs : 0 < GetSize v123) by (vm_compute; reflexivity).
  split; [exact valid_v123|]. split; [exact Hs|].
  destruct (Erase_last_is_PopBack v123 valid_v123 Hs) as (it & v' & He & _ & Hel & _).
  exists it, v'. by split.
Defined.

Lemma ctor_copy_spec_witness :
  valid v123 /\
  exists v, ctor_copy (FS:=ample_store) v123 = Done v () /\
    elements v = elements v123 /\ GetCapacity v = GetCapacity v123.
Proof.
  split; [exact valid_v123|].
  destruct (proj1 (ctor_copy_spec (FS:=ample_store) v123 valid_v123))
    as (v & Hc & _ & He & _ & Hcap).
  - vm_compute. eauto.
  - exists v. by split_and!.
Defined.

Lemma assign_copy_spec_witness :
  valid v123 /\
  (exists v', assign_copy (FS:=ample_store) false ctor_default v123 = Done () (v', v123) /\
     elements v' = elements v123) /\
  assign_copy (FS:=exhausted_store) false ctor_default v123
    = Thrown bad_alloc (ctor_default, v123).
Proof.
  split; [exact valid_v123|]. split.
  - destruct (proj1 (assign_copy_spec (FS:=ample_store) ctor_default v123 valid_v123))
      as (v' & Ha & _ & He & _).
    + vm_compute. eauto.
    + exists v'. by split.
  - apply (proj1 (proj2 (assign_copy_spec (FS:=exhausted_store) ctor_default v123
                           valid_v123))).
    by vm_compute.
Defined.

Lemma ctor_init_spec_witness :
  is_Some (ArrayPtr_new (FS:=ample_store) (Z.of_nat (length [1; 2; 3]))) /\
  exists v, ctor_init (FS:=ample_store) [1; 2; 3] = Done v () /\
    elements v = [1; 2; 3].
Proof.
  assert (Ha : is_Some (ArrayPtr_new (FS:=ample_store) (Z.of_nat (length [1; 2; 3]))))
    by (vm_compute; eauto).
  split; [exact Ha|].
  destruct (ctor_init_spec (FS:=ample_store) [1; 2; 3] Ha) as (v & Hc & _ & _ & _ & He).
  exists v. by split.
Defined.

Lemma ctor_fill_spec_witness :
  0 <= 3 /\ is_Some (ArrayPtr_new (FS:=ample_store) 3) /\
  exists v, ctor_fill (FS:=ample_store) 3 42 = Done v () /\
    elements v = replicate (Z.to_nat 3) 42.
Proof.
  assert (Ha : is_Some (ArrayPtr_new (FS:=ample_store) 3)) by (vm_compute; eauto).
  split; [lia|]. split; [exact Ha|].
  destruct (ctor_fill_spec (FS:=ample_store) 3 42 ltac:(lia) Ha)
    as (v & Hc & _ & _ & _ & He).
  exists v. by split.
Defined.

Lemma ctor_fill_move_spec_witness :
  0 <= 3 /\ is_Some (ArrayPtr_new (FS:=store_X) 3) /\
  exists v, ctor_fill_move (FS:=store_X) 3 (MkX 7) =
              Done (v, Nat.iter (Z.to_nat 3) moved_from (MkX 7)) () /\
    GetSize v = 3.
Proof.
  assert (Ha : is_Some (ArrayPtr_new (FS:=store_X) 3)) by (vm_compute; eauto).
  split; [lia|]. split; [exact Ha|].
  destruct (ctor_fill_move_spec (FS:=store_X) 3 (MkX 7) ltac:(lia) Ha)
    as (v & Hc & _ & Hs & _).
  exists v. by split.
Defined.

Lemma operator_eq_spec_witness :
  valid v123 /\ valid v123_roomy /\
  exists r, operator_eq v123 v123_roomy = Some r /\
    (r = true <-> elements v123 = elements v123_roomy) /\
    operator_ne v123 v123_roomy = Some (negb r).
Proof.
  split; [exact valid_v123|]. split; [exact valid_v123_roomy|].
  apply (operator_eq_spec (CT:=Comparable_int) v123 v123_roomy);
    [exact Z.eqb_eq|exact valid_v123|exact valid_v123_roomy].
Defined.

Lemma operators_int_trichotomy_witness :
  valid v123 /\ valid v123_roomy /\
  exists lt eq gt,
    operator_lt v123 v123_roomy = Some lt /\ operator_eq v123 v123_roomy = Some eq /\
    operator_gt v123 v123_roomy = Some gt /\
    operator_le v123 v123_roomy = Some (lt || eq) /\
    operator_ge v123 v123_roomy = Some (gt || eq).
Proof.
  split; [exact valid_v123|]. split; [exact valid_v123_roomy|].
  destruct (operators_int_trichotomy v123 v123_roomy valid_v123 valid_v123_roomy)
    as (lt & eq & gt & H1 & H2 & H3 & _ & H4 & H5 & _).
  exists lt, eq, gt. by split_and!.
Defined.

Lemma operator_lt_int_lexicographic_witness :
  valid v123 /\ valid v123_roomy /\
  (operator_lt v123 v123_roomy = Some true <->
   (exists y t, elements v123_roomy = elements v123 ++ y :: t) \/
   (exists p x y s t,
      elements v123 = p ++ x :: s /\ elements v123_roomy = p ++ y :: t /\ x < y)).
Proof.
  split; [exact valid_v123|]. split; [exact valid_v123_roomy|].
  exact (operator_lt_int_lexicographic v123 v123_roomy valid_v123 valid_v123_roomy).
Defined.

Lemma GenerateVector_spec_witness :
  0 <= 5 /\ is_Some (ArrayPtr_new (FS:=ample_store) 5) /\
  exists v, GenerateVector (FS:=ample_store) 5 = Done v () /\
    GetSize v = 5 /\ elements v = seqZ 1 5.
Proof.
  assert (Ha : is_Some (ArrayPtr_new (FS:=ample_store) 5)) by (vm_compute; eauto).
  split; [lia|]. split; [exact Ha|].
  destruct (proj1 (GenerateVector_spec (FS:=ample_store) 5 ltac:(lia) Ha))
    as (v & Hg & Hs & _ & He & _).
  - by vm_compute.
  - exists v. by split_and!.
Defined.

Lemma valid_preserved_witness :
  completes (FS:=ample_store) [v123] [MkVec [99; 1; 2; 3; 0; 0] 4 6] /\
  Forall valid [v123] /\ Forall valid [MkVec [99; 1; 2; 3; 0; 0] 4 6].
Proof.
  assert (Hr : completes (FS:=ample_store) [v123] [MkVec [99; 1; 2; 3; 0; 0] 4 6]).
  { apply (run_Insert (FS:=ample_store) v123 0 (Outside 99) 0). by vm_compute. }
  assert (Hb : Forall valid [v123]) by (constructor; [exact valid_v123|constructor]).
  split; [exact Hr|]. split; [exact Hb|].
  exact (valid_preserved (FS:=ample_store) _ _ Hr Hb).
Defined.
